(** * pyBloxorz: block geometry and breadth-first solver

    Shallow embedding of [solver/solver.py].

    - Python integers are unbounded, so rows and columns are [Z].
    - [Block.__post_init__] asserts on every construction; the constructor
      is the partial function [mkBlock], and every method that builds a
      block returns an [option].
    - The [Solver] object keeps its explored set and its queue as
      attributes; [solve] is a state transformer over the record [Solver].
      The [while] loop is run with fuel, one unit per test of its condition.
    - The terrain callback is taken to be a pure total function. *)

From stdpp Require Import gmap list.

Open Scope Z_scope.

(** ** Moves and positions *)

Inductive Move := UP | RIGHT | DOWN | LEFT.

Record Pos := mkPos { row : Z; col : Z }.

Module PosOps.
Definition drow (p : Pos) (d : Z) : Pos := mkPos (row p + d) (col p).
Definition dcol (p : Pos) (d : Z) : Pos := mkPos (row p) (col p + d).
End PosOps.

#[global] Instance Move_eq_dec : EqDecision Move.
Proof. solve_decision. Defined.

#[global] Instance Pos_eq_dec : EqDecision Pos.
Proof. solve_decision. Defined.

#[global] Instance Pos_countable : Countable Pos.
Proof.
  refine (inj_countable' (fun p => (row p, col p))
                         (fun rc => mkPos rc.1 rc.2) _).
  by intros [].
Defined.

(** ** Blocks *)

Record Block := BlockOf { b1 : Pos; b2 : Pos }.

#[global] Instance Block_eq_dec : EqDecision Block.
Proof. solve_decision. Defined.

#[global] Instance Block_countable : Countable Block.
Proof.
  refine (inj_countable' (fun b => (b1 b, b2 b))
                         (fun pq => BlockOf pq.1 pq.2) _).
  by intros [].
Defined.

(** [Block(b1, b2)]: the dataclass constructor followed by the assertion of
    [__post_init__]; [None] stands for the [AssertionError]. *)
Definition mkBlock (p q : Pos) : option Block :=
  if bool_decide (row p <= row q) && bool_decide (col p <= col q)
  then Some (BlockOf p q)
  else None.

Definition drow (b : Block) (d1 d2 : Z) : option Block :=
  mkBlock (PosOps.drow (b1 b) d1) (PosOps.drow (b2 b) d2).

Definition dcol (b : Block) (d1 d2 : Z) : option Block :=
  mkBlock (PosOps.dcol (b1 b) d1) (PosOps.dcol (b2 b) d2).

Definition is_standing (b : Block) : bool := bool_decide (b1 b = b2 b).

Definition left (b : Block) : option Block :=
  if is_standing b then dcol b (-2) (-1)
  else if bool_decide (row (b1 b) = row (b2 b)) then dcol b (-1) (-2)
  else dcol b (-1) (-1).

Definition right (b : Block) : option Block :=
  if is_standing b then dcol b 1 2
  else if bool_decide (row (b1 b) = row (b2 b)) then dcol b 2 1
  else dcol b 1 1.

Definition up (b : Block) : option Block :=
  if is_standing b then drow b (-2) (-1)
  else if bool_decide (row (b1 b) = row (b2 b)) then drow b (-1) (-1)
  else drow b (-1) (-2).

Definition down (b : Block) : option Block :=
  if is_standing b then drow b 1 2
  else if bool_decide (row (b1 b) = row (b2 b)) then drow b 1 1
  else drow b 2 1.

(** [neighbors] builds the four blocks in the order left, right, up, down;
    the first failing assertion aborts the call. *)
Definition neighbors (b : Block) : option (list (Block * Move)) :=
  l ← left b; r ← right b; u ← up b; d ← down b;
  Some [(l, LEFT); (r, RIGHT); (u, UP); (d, DOWN)].

(** The tilt in a given direction, as dispatched by the tags of
    [neighbors]. *)
Definition tilt (m : Move) (b : Block) : option Block :=
  match m with
  | LEFT => left b
  | RIGHT => right b
  | UP => up b
  | DOWN => down b
  end.

(** ** The solver object *)

Definition search_record : Type := Block * list Move.

Record Solver := mkSolver {
  explored : gset Block;
  fifo : list search_record;
  goal : Pos;
  start : Pos;
  terrain : Pos → bool
}.

(** [Solver.__init__] *)
Definition init (start goal : Pos) (terrain : Pos → bool) : Solver :=
  mkSolver ∅ [] goal start terrain.

Definition set_fifo (s : Solver) (q : list search_record) : Solver :=
  mkSolver (explored s) q (goal s) (start s) (terrain s).

Definition add_explored (s : Solver) (b : Block) : Solver :=
  mkSolver (explored s ∪ {[b]}) (fifo s) (goal s) (start s) (terrain s).

(** [self.fifo.put(r)] *)
Definition put (s : Solver) (r : search_record) : Solver :=
  set_fifo s (fifo s ++ [r]).

Definition done (s : Solver) (block : Block) : bool :=
  is_standing block && bool_decide (b1 block = goal s).

Definition is_legal (s : Solver) (p q : Pos) : bool :=
  terrain s p && terrain s q.

(** The body of [for b, m in neighbors]. *)
Fixpoint for_neighbors (s : Solver) (history : list Move)
    (ns : list (Block * Move)) : Solver :=
  match ns with
  | [] => s
  | (b, m) :: ns' =>
      if decide (b ∈ explored s) then for_neighbors s history ns'
      else if negb (is_legal s (b1 b) (b2 b)) then for_neighbors s history ns'
      else for_neighbors (put s (b, history ++ [m])) history ns'
  end.

(** What a call can end in: the fuel of the model ran out, an assertion
    failed, or the call returned a list and left the object in a state. *)
Inductive outcome :=
  | OutOfFuel
  | AssertionError
  | Return (h : list Move) (s : Solver).

(** The [while] loop of [solve]; one unit of fuel per test of the loop
    condition. *)
Fixpoint while_loop (fuel : nat) (s : Solver) : outcome :=
  match fuel with
  | O => OutOfFuel
  | S fuel' =>
      match fifo s with
      | [] => Return [] s
      | (block, history) :: rest =>
          let s := set_fifo s rest in
          if done s block then Return history s
          else
            match neighbors block with
            | None => AssertionError
            | Some ns =>
                let s := add_explored s block in
                while_loop fuel' (for_neighbors s history ns)
            end
      end
  end.

(** [Solver.solve] *)
Definition solve (fuel : nat) (s : Solver) : outcome :=
  match mkBlock (start s) (start s) with
  | None => AssertionError
  | Some b => while_loop fuel (put s (b, []))
  end.

(** The list a call returned, if it returned. *)
Definition returned (o : outcome) : option (list Move) :=
  match o with Return h _ => Some h | _ => None end.

(** Two calls in a row on the same object. *)
Definition solve_twice (fuel : nat) (s : Solver) : option (list Move * list Move) :=
  match solve fuel s with
  | Return h1 s1 =>
      match solve fuel s1 with
      | Return h2 _ => Some (h1, h2)
      | _ => None
      end
  | _ => None
  end.

(** The terrain of the concrete scenario: rows 0-2, columns 0-3. *)
Definition grid3x4 (p : Pos) : bool :=
  bool_decide (0 <= row p <= 2) && bool_decide (0 <= col p <= 3).

(** A single row of four cells. *)
Definition row4 (p : Pos) : bool :=
  bool_decide (row p = 0) && bool_decide (0 <= col p <= 3).

(** ** Vocabulary of the specification *)

(** Canonical (lexicographic) order on cells: by row, then by column. *)
Definition lex_le (p q : Pos) : Prop :=
  row p < row q ∨ (row p = row q ∧ col p <= col q).


Definition lying_h (b : Block) : Prop :=
  row (b1 b) = row (b2 b) ∧ col (b2 b) = col (b1 b) + 1.

Definition lying_v (b : Block) : Prop :=
  col (b1 b) = col (b2 b) ∧ row (b2 b) = row (b1 b) + 1.

(** Well-formed configuration: one cell, or two adjacent cells with the
    smaller one first. *)
Definition wf (b : Block) : Prop :=
  b1 b = b2 b ∨ lying_h b ∨ lying_v b.

Definition standing (p : Pos) : Block := BlockOf p p.

(** The cell [n] steps away from [p] in direction [m]. *)
Definition shift (m : Move) (n : Z) (p : Pos) : Pos :=
  match m with
  | UP => PosOps.drow p (- n)
  | DOWN => PosOps.drow p n
  | LEFT => PosOps.dcol p (- n)
  | RIGHT => PosOps.dcol p n
  end.

(** The block covers exactly the cells [p] and [q]. *)
Definition covers (b : Block) (p q : Pos) : Prop :=
  (b1 b = p ∧ b2 b = q) ∨ (b1 b = q ∧ b2 b = p).

(** Both cells of a block are traversable: [is_legal] on a bare terrain. *)
Definition legal (t : Pos → bool) (b : Block) : bool :=
  t (b1 b) && t (b2 b).

(** [path t b ms b']: tilting [b] by the moves [ms] in turn, every tilt
    passing the assertion and landing on traversable cells, ends in [b']. *)
Inductive path (t : Pos → bool) : Block → list Move → Block → Prop :=
  | path_nil b : path t b [] b
  | path_cons b m b' ms b'' :
      tilt m b = Some b' → legal t b' = true → path t b' ms b'' →
      path t b (m :: ms) b''.

(** The configurations met after each move of [ms], starting from [b]. *)
Fixpoint walk (b : Block) (ms : list Move) : option (list Block) :=
  match ms with
  | [] => Some []
  | m :: ms' => b' ← tilt m b; bs ← walk b' ms'; Some (b' :: bs)
  end.

Definition reachable (t : Pos → bool) (p0 : Pos) (b : Block) : Prop :=
  ∃ ms, path t (standing p0) ms b.

(** The configurations reachable from the standing start form a finite
    set. *)
Definition finite_reach (t : Pos → bool) (p0 : Pos) : Prop :=
  ∃ X : gset Block, ∀ b, reachable t p0 b → b ∈ X.

Definition solvable (t : Pos → bool) (p0 g : Pos) : Prop :=
  reachable t p0 (standing g).

(** [d] is the graph distance from the standing start to the standing
    goal: some legal move sequence has length [d], none is shorter. *)
Definition distance (t : Pos → bool) (p0 g : Pos) (d : nat) : Prop :=
  (∃ ms, path t (standing p0) ms (standing g) ∧ length ms = d) ∧
  (∀ ms, path t (standing p0) ms (standing g) → (d <= length ms)%nat).

(** ** The loop, one iteration at a time *)

(** The records one expansion appends to the queue. *)
Definition fresh (E : gset Block) (t : Pos → bool) (history : list Move)
    (ns : list (Block * Move)) : list search_record :=
  (λ bm, (fst bm, history ++ [snd bm])) <$>
    filter (λ bm, (fst bm ∉ E) ∧ legal t (fst bm) = true) ns.

(** The state at the next test of the loop condition. *)
Definition next (s : Solver) (block : Block) (history : list Move)
    (rest : list search_record) (ns : list (Block * Move)) : Solver :=
  for_neighbors (add_explored (set_fifo s rest) block) history ns.

Inductive step : Solver → Solver → Prop :=
  | step_expand s block history rest ns :
      fifo s = (block, history) :: rest →
      done s block = false →
      neighbors block = Some ns →
      step s (next s block history rest ns).

(** The queue holds histories of one length, then of that length plus one. *)
Fixpoint ordered (q : list search_record) : Prop :=
  match q with
  | [] => True
  | r :: q' =>
      Forall (λ r', (length (snd r) <= length (snd r') <= length (snd r) + 1)%nat) q' ∧
      ordered q'
  end.

(** The invariant of the search for start [p0], goal [g], terrain [t]. *)
Record bfs_inv (t : Pos → bool) (p0 g : Pos) (s : Solver) : Prop := BfsInv {
  inv_goal : goal s = g;
  inv_start : start s = p0;
  inv_terrain : terrain s = t;
  (* every history leads from the start to its block *)
  inv_sound : ∀ b h, (b, h) ∈ fifo s → path t (standing p0) h b;
  inv_ordered : ordered (fifo s);
  (* legal successors of expanded blocks are expanded or pending *)
  inv_closed : ∀ b m b',
      b ∈ explored s → tilt m b = Some b' → legal t b' = true →
      b' ∈ explored s ∨ ∃ h, (b', h) ∈ fifo s;
  inv_goal_fresh : standing g ∉ explored s;
  (* some pending record lies on a route no longer than any solution *)
  inv_front : ∀ P, path t (standing p0) P (standing g) →
      ∃ b h P', (b, h) ∈ fifo s ∧ path t b P' (standing g) ∧
                (length h + length P' <= length P)%nat;
  (* only the very first record has an empty history *)
  inv_first : (explored s = ∅ ∧ fifo s = [(standing p0, [])]) ∨
              (standing p0 ∈ explored s ∧ ∀ b h, (b, h) ∈ fifo s → h ≠ [])
}.

(** ** Termination measure *)

Fixpoint pot (n : nat) : nat :=
  match n with
  | O => 1
  | S n' => 4 * pot n' + 1
  end.

(** A pending record weighs more once its block has been expanded: it can
    still append four records before the unexplored part shrinks. *)
Definition weight (X E : gset Block) (r : search_record) : nat :=
  if decide (fst r ∈ E) then pot (S (size (X ∖ E))) else pot (size (X ∖ E)).

Definition measure (X E : gset Block) (q : list search_record) : nat :=
  sum_list_with (weight X E) q.

(** ** Further vocabulary *)

Definition opposite (m : Move) : Move :=
  match m with
  | UP => DOWN
  | DOWN => UP
  | LEFT => RIGHT
  | RIGHT => LEFT
  end.

(** The blocks that at most [n] tilts can produce from [b], the terrain
    left aside. *)
Fixpoint within (n : nat) (b : Block) : gset Block :=
  match n with
  | O => {[b]}
  | S n' =>
      {[b]} ∪
      ⋃ ((λ m, match tilt m b with
               | Some b' => within n' b'
               | None => ∅
               end) <$> [LEFT; RIGHT; UP; DOWN])
  end.

(** The object after [n] calls of [solve] that all returned. *)
Fixpoint after_calls (fuel n : nat) (s : Solver) : option Solver :=
  match n with
  | O => Some s
  | S n' =>
      match solve fuel s with
      | Return _ s' => after_calls fuel n' s'
      | _ => None
      end
  end.

(** What holds of the object between calls, however many were made. *)
Record call_inv (t : Pos → bool) (p0 g : Pos) (s : Solver) : Prop := CallInv {
  call_goal : goal s = g;
  call_start : start s = p0;
  call_terrain : terrain s = t;
  call_sound : ∀ b h, (b, h) ∈ fifo s → path t (standing p0) h b;
  call_explored : ∀ b, b ∈ explored s → reachable t p0 b ∧ b ≠ standing g
}.

(** An unbounded terrain: the whole of row 0. *)
Definition row0 (p : Pos) : bool := bool_decide (row p = 0).

(** The terrain without obstacles. *)
Definition plain (p : Pos) : bool := true.

(** The place of a move in the order in which [neighbors] lists them. *)
Definition rank (m : Move) : nat :=
  match m with
  | LEFT => 0
  | RIGHT => 1
  | UP => 2
  | DOWN => 3
  end.

(** Position by position comparison of two move sequences in that order. *)
Fixpoint lex_leb (h P : list Move) : bool :=
  match h, P with
  | [], _ => true
  | _ :: _, [] => false
  | m :: h', m' :: P' =>
      (rank m <? rank m')%nat || ((rank m =? rank m')%nat && lex_leb h' P')
  end.

(** A history read as a number in base four behind a leading one: shorter
    histories get smaller numbers, histories of one length are numbered in
    the order of [lex_leb]. *)
Definition code_from (acc : nat) (h : list Move) : nat :=
  fold_left (λ a m, (4 * a + rank m)%nat) h acc.

Definition code (h : list Move) : nat := code_from 1 h.

Fixpoint increasing (q : list search_record) : Prop :=
  match q with
  | [] => True
  | r :: q' =>
      Forall (λ r', (code (snd r) < code (snd r'))%nat) q' ∧ increasing q'
  end.

(** The order in which records wait, on top of [bfs_inv]. *)
Record tie_inv (t : Pos → bool) (p0 g : Pos) (s : Solver) : Prop := TieInv {
  tie_bfs : bfs_inv t p0 g s;
  tie_increasing : increasing (fifo s);
  (* every pending history comes before the children of the first one *)
  tie_bound : ∀ b0 h0 rest, fifo s = (b0, h0) :: rest →
      Forall (λ r, (code (snd r) < 4 * code h0)%nat) (fifo s);
  (* a pending record leads to a solution that comes no later than any *)
  tie_front : ∀ P, path t (standing p0) P (standing g) →
      ∃ b h P', (b, h) ∈ fifo s ∧ path t b P' (standing g) ∧
                (code (h ++ P') <= code P)%nat
}.

(** The board moved by [dr] rows and [dc] columns. *)
Definition move_pos (dr dc : Z) (p : Pos) : Pos :=
  mkPos (row p + dr) (col p + dc).

Definition move_block (dr dc : Z) (b : Block) : Block :=
  BlockOf (move_pos dr dc (b1 b)) (move_pos dr dc (b2 b)).

Definition move_terrain (dr dc : Z) (t : Pos → bool) : Pos → bool :=
  λ p, t (move_pos (- dr) (- dc) p).

(** Two solver states that differ by the move of the board only. *)
Record moved (dr dc : Z) (s s' : Solver) : Prop := Moved {
  moved_explored : ∀ b, b ∈ explored s ↔ move_block dr dc b ∈ explored s';
  moved_fifo : fifo s' = prod_map (move_block dr dc) id <$> fifo s;
  moved_goal : goal s' = move_pos dr dc (goal s);
  moved_start : start s' = move_pos dr dc (start s);
  moved_terrain : ∀ p, terrain s' (move_pos dr dc p) = terrain s p
}.

(** ** Block geometry *)

Lemma mkBlock_Some p q :
  row p <= row q → col p <= col q → mkBlock p q = Some (BlockOf p q).
Proof.
  intros Hr Hc. unfold mkBlock.
  by rewrite !bool_decide_eq_true_2.
Qed.

Lemma mkBlock_None p q :
  mkBlock p q = None ↔ ¬ (row p <= row q ∧ col p <= col q).
Proof.
  unfold mkBlock.
  destruct (bool_decide_reflect (row p <= row q));
    destruct (bool_decide_reflect (col p <= col q)); simpl;
    split; (congruence || tauto || (intros []; tauto)).
Qed.

Lemma is_standing_true b : is_standing b = true ↔ b1 b = b2 b.
Proof. unfold is_standing. apply bool_decide_eq_true. Qed.

Lemma is_standing_false b : is_standing b = false ↔ b1 b ≠ b2 b.
Proof. unfold is_standing. apply bool_decide_eq_false. Qed.

Lemma lying_h_not_standing b : lying_h b → is_standing b = false.
Proof.
  intros [_ Hc]. apply is_standing_false. intros E. rewrite E in Hc. lia.
Qed.

Lemma lying_v_not_standing b : lying_v b → is_standing b = false.
Proof.
  intros [_ Hr]. apply is_standing_false. intros E. rewrite E in Hr. lia.
Qed.

Lemma lying_v_rows_differ b :
  lying_v b → bool_decide (row (b1 b) = row (b2 b)) = false.
Proof. intros [_ Hr]. apply bool_decide_eq_false. lia. Qed.

Lemma lying_h_rows_agree b :
  lying_h b → bool_decide (row (b1 b) = row (b2 b)) = true.
Proof. intros [Hr _]. by apply bool_decide_eq_true. Qed.

(** Unfolds one tilt on a block whose orientation is known. *)
Ltac tilt_known :=
  unfold tilt, left, right, up, down, drow, dcol;
  repeat match goal with
  | H : is_standing _ = _ |- _ => rewrite H
  | H : bool_decide (row _ = row _) = _ |- _ => rewrite H
  end;
  cbn [PosOps.drow PosOps.dcol row col].

Lemma tilt_standing p m :
  tilt m (standing p) =
    Some match m with
         | LEFT | UP => BlockOf (shift m 2 p) (shift m 1 p)
         | RIGHT | DOWN => BlockOf (shift m 1 p) (shift m 2 p)
         end.
Proof.
  assert (Hs : is_standing (standing p) = true) by by apply is_standing_true.
  destruct m; tilt_known; cbn [standing b1 b2 shift];
    apply mkBlock_Some; cbn; lia.
Qed.

Lemma tilt_lying_h b :
  lying_h b →
  tilt LEFT b = Some (standing (PosOps.dcol (b1 b) (-1))) ∧
  tilt RIGHT b = Some (standing (PosOps.dcol (b2 b) 1)) ∧
  tilt UP b = Some (BlockOf (PosOps.drow (b1 b) (-1)) (PosOps.drow (b2 b) (-1))) ∧
  tilt DOWN b = Some (BlockOf (PosOps.drow (b1 b) 1) (PosOps.drow (b2 b) 1)).
Proof.
  intros Hh.
  pose proof (lying_h_not_standing b Hh) as Hs.
  pose proof (lying_h_rows_agree b Hh) as Hr.
  destruct Hh as [Hrow Hcol].
  repeat split; tilt_known.
  - rewrite mkBlock_Some by (cbn; lia). unfold standing, PosOps.dcol.
    do 2 f_equal. f_equal; lia.
  - rewrite mkBlock_Some by (cbn; lia). unfold standing, PosOps.dcol.
    do 2 f_equal. f_equal; lia.
  - apply mkBlock_Some; cbn; lia.
  - apply mkBlock_Some; cbn; lia.
Qed.

Lemma tilt_lying_v b :
  lying_v b →
  tilt UP b = Some (standing (PosOps.drow (b1 b) (-1))) ∧
  tilt DOWN b = Some (standing (PosOps.drow (b2 b) 1)) ∧
  tilt LEFT b = Some (BlockOf (PosOps.dcol (b1 b) (-1)) (PosOps.dcol (b2 b) (-1))) ∧
  tilt RIGHT b = Some (BlockOf (PosOps.dcol (b1 b) 1) (PosOps.dcol (b2 b) 1)).
Proof.
  intros Hv.
  pose proof (lying_v_not_standing b Hv) as Hs.
  pose proof (lying_v_rows_differ b Hv) as Hr.
  destruct Hv as [Hcol Hrow].
  repeat split; tilt_known.
  - rewrite mkBlock_Some by (cbn; lia). unfold standing, PosOps.drow.
    do 2 f_equal. f_equal; lia.
  - rewrite mkBlock_Some by (cbn; lia). unfold standing, PosOps.drow.
    do 2 f_equal. f_equal; lia.
  - apply mkBlock_Some; cbn; lia.
  - apply mkBlock_Some; cbn; lia.
Qed.

Lemma standing_eta b : b1 b = b2 b → b = standing (b1 b).
Proof. destruct b as [p q]; cbn. by intros ->. Qed.

Lemma wf_standing p : wf (standing p).
Proof. by left. Qed.

Lemma wf_lex_le b : wf b → lex_le (b1 b) (b2 b).
Proof.
  unfold lex_le. intros [E | [[Hr Hc] | [Hc Hr]]].
  - rewrite E. right. lia.
  - right. lia.
  - left. lia.
Qed.

(** Every tilt of a well-formed block passes the assertion and gives a
    well-formed block. *)
Ltac wf_solve :=
  first [ apply wf_standing
        | right; left; split; cbn in *; lia
        | right; right; split; cbn in *; lia ].

Lemma tilt_wf b m : wf b → ∃ b', tilt m b = Some b' ∧ wf b'.
Proof.
  intros [Hs | [Hh | Hv]].
  - rewrite (standing_eta b Hs), tilt_standing. eexists; split; [done |].
    destruct m; wf_solve.
  - destruct (tilt_lying_h b Hh) as (Hl & Hr & Hu & Hd).
    destruct Hh as [Hrow Hcol].
    destruct m; eexists; (split; [eassumption |]); wf_solve.
  - destruct (tilt_lying_v b Hv) as (Hu & Hd & Hl & Hr).
    destruct Hv as [Hcol Hrow].
    destruct m; eexists; (split; [eassumption |]); wf_solve.
Qed.

Lemma neighbors_wf b :
  wf b →
  ∃ l r u d,
    neighbors b = Some [(l, LEFT); (r, RIGHT); (u, UP); (d, DOWN)] ∧
    tilt LEFT b = Some l ∧ tilt RIGHT b = Some r ∧
    tilt UP b = Some u ∧ tilt DOWN b = Some d.
Proof.
  intros Hwf.
  destruct (tilt_wf b LEFT Hwf) as (l & Hl & _).
  destruct (tilt_wf b RIGHT Hwf) as (r & Hr & _).
  destruct (tilt_wf b UP Hwf) as (u & Hu & _).
  destruct (tilt_wf b DOWN Hwf) as (d & Hd & _).
  exists l, r, u, d. repeat split; try done.
  unfold neighbors. cbn in Hl, Hr, Hu, Hd. by rewrite Hl, Hr, Hu, Hd.
Qed.

(** C2: on a well-formed block, tilt follows the three-way case split:
    (a) a standing block at [p] becomes a lying block over the cells one and
    two steps from [p] in the direction of the tilt; (b) a lying block tilted
    along its long axis becomes standing one cell beyond the end it travels
    towards (horizontal: left of [b1], right of [b2]; vertical: above [b1],
    below [b2]); (c) a lying block tilted across its long axis stays lying,
    both cells moved by one. *)
Theorem tilt_case_split (b : Block) (Hwf : wf b) :
  (is_standing b = true →
     ∀ m, ∃ b', tilt m b = Some b' ∧ is_standing b' = false ∧
                covers b' (shift m 1 (b1 b)) (shift m 2 (b1 b))) ∧
  (lying_h b →
     tilt LEFT b = Some (standing (shift LEFT 1 (b1 b))) ∧
     tilt RIGHT b = Some (standing (shift RIGHT 1 (b2 b))) ∧
     tilt UP b = Some (BlockOf (shift UP 1 (b1 b)) (shift UP 1 (b2 b))) ∧
     tilt DOWN b = Some (BlockOf (shift DOWN 1 (b1 b)) (shift DOWN 1 (b2 b)))) ∧
  (lying_v b →
     tilt UP b = Some (standing (shift UP 1 (b1 b))) ∧
     tilt DOWN b = Some (standing (shift DOWN 1 (b2 b))) ∧
     tilt LEFT b = Some (BlockOf (shift LEFT 1 (b1 b)) (shift LEFT 1 (b2 b))) ∧
     tilt RIGHT b = Some (BlockOf (shift RIGHT 1 (b1 b)) (shift RIGHT 1 (b2 b)))) ∧
  (is_standing b = true ∨ lying_h b ∨ lying_v b).
Proof.
  split; [| split; [| split]].
  - intros Hs m. apply is_standing_true in Hs.
    destruct b as [p q]; cbn in Hs; subst q.
    change (BlockOf p p) with (standing p). rewrite tilt_standing.
    eexists; split; [done |].
    destruct m; cbn; (split; [apply is_standing_false; cbn; intros [=]; lia |]);
      unfold covers; cbn; auto.
  - intros Hh. exact (tilt_lying_h b Hh).
  - intros Hv. exact (tilt_lying_v b Hv).
  - destruct Hwf as [Hs | [Hh | Hv]]; auto.
    left. by apply is_standing_true.
Qed.

Lemma tilt_case_split_witness :
  wf (BlockOf (mkPos 1 1) (mkPos 1 2)) ∧
  tilt LEFT (BlockOf (mkPos 1 1) (mkPos 1 2)) = Some (standing (mkPos 1 0)).
Proof.
  assert (Hh : lying_h (BlockOf (mkPos 1 1) (mkPos 1 2))) by (split; cbn; lia).
  assert (Hwf : wf (BlockOf (mkPos 1 1) (mkPos 1 2))) by (right; left; exact Hh).
  split; [exact Hwf |].
  exact (proj1 (proj1 (proj2 (tilt_case_split _ Hwf)) Hh)).
Defined.

(** C7: each of the four tilts of a well-formed block passes the
    construction-time assertion (tilt is total there) and gives a
    well-formed block whose cells are in canonical order. *)
Theorem tilt_keeps_canonical (b : Block) (m : Move) (Hwf : wf b) :
  ∃ b', tilt m b = Some b' ∧ wf b' ∧ lex_le (b1 b') (b2 b') ∧
        mkBlock (b1 b') (b2 b') = Some b'.
Proof.
  destruct (tilt_wf b m Hwf) as (b' & Ht & Hwf').
  exists b'. repeat split; [done | done | by apply wf_lex_le |].
  destruct b' as [p q]. apply mkBlock_Some; cbn.
  - destruct Hwf' as [E | [[Hr Hc] | [Hc Hr]]]; cbn in *; subst; lia.
  - destruct Hwf' as [E | [[Hr Hc] | [Hc Hr]]]; cbn in *; subst; lia.
Qed.

Lemma tilt_keeps_canonical_witness :
  wf (standing (mkPos 0 0)) ∧
  ∃ b', tilt UP (standing (mkPos 0 0)) = Some b' ∧ wf b' ∧
        lex_le (b1 b') (b2 b') ∧ mkBlock (b1 b') (b2 b') = Some b'.
Proof.
  split; [apply wf_standing |].
  apply (tilt_keeps_canonical (standing (mkPos 0 0)) UP), wf_standing.
Defined.




(** ** Paths *)

Lemma path_wf t b ms b' : wf b → path t b ms b' → wf b'.
Proof.
  intros Hwf Hp. induction Hp as [| b m b' ms b'' Ht Hl Hp IH]; [done |].
  apply IH. destruct (tilt_wf b m Hwf) as (c & Hc & Hwfc). congruence.
Qed.

Lemma path_snoc t b ms b' m b'' :
  path t b ms b' → tilt m b' = Some b'' → legal t b'' = true →
  path t b (ms ++ [m]) b''.
Proof.
  intros Hp Ht Hl. induction Hp as [| b m0 c ms b' Ht0 Hl0 Hp IH]; cbn.
  - econstructor; [done .. |]. constructor.
  - econstructor; [done .. |]. by apply IH.
Qed.

Lemma path_end_legal t b ms b' :
  path t b ms b' → b' = b ∨ legal t b' = true.
Proof.
  induction 1 as [| b m c ms b' Ht Hl Hp [-> | IH]]; auto.
Qed.

Lemma reachable_wf t p0 b : reachable t p0 b → wf b.
Proof. intros [ms Hp]. eapply path_wf; [apply wf_standing | done]. Qed.

Lemma walk_length b ms bs : walk b ms = Some bs → length bs = length ms.
Proof.
  revert b bs. induction ms as [| m ms IH]; intros b bs; cbn.
  - by intros [= <-].
  - destruct (tilt m b) as [b' |]; cbn; [| done].
    destruct (walk b' ms) as [bs' |] eqn:Hw; cbn; [| done].
    intros [= <-]. cbn. f_equal. by eapply IH.
Qed.

(** A path is a walk all of whose configurations are legal. *)
Lemma path_walk t b ms b' :
  path t b ms b' →
  ∃ bs, walk b ms = Some bs ∧ Forall (λ c, legal t c = true) bs.
Proof.
  induction 1 as [| b m c ms b' Ht Hl Hp (bs & Hw & Hall)].
  - exists []. by split.
  - exists (c :: bs). cbn. rewrite Ht; cbn. rewrite Hw; cbn.
    split; [done |]. by constructor.
Qed.

(** ** One iteration *)

Lemma set_fifo_id s : set_fifo s (fifo s) = s.
Proof. by destruct s. Qed.

Lemma for_neighbors_eq s history ns :
  for_neighbors s history ns =
    set_fifo s (fifo s ++ fresh (explored s) (terrain s) history ns).
Proof.
  revert s. induction ns as [| [b m] ns IH]; intros s.
  - unfold fresh. cbn. by rewrite app_nil_r, set_fifo_id.
  - cbn [for_neighbors]. unfold fresh. rewrite filter_cons. cbn [fst snd].
    destruct (decide (b ∈ explored s)) as [Hin | Hout].
    + rewrite decide_False by tauto. apply IH.
    + unfold is_legal, legal.
      destruct (terrain s (b1 b) && terrain s (b2 b)) eqn:Hl; cbn [negb].
      * rewrite decide_True by done. rewrite IH. cbn.
        unfold set_fifo, fresh; cbn. by rewrite <- app_assoc.
      * rewrite decide_False by (intros [_ ?]; done). apply IH.
Qed.

Lemma elem_of_fresh E t history ns b h :
  (b, h) ∈ fresh E t history ns ↔
  ∃ m, h = history ++ [m] ∧ (b, m) ∈ ns ∧ (b ∉ E) ∧ legal t b = true.
Proof.
  unfold fresh. rewrite list_elem_of_fmap. split.
  - intros ([b' m] & [= -> ->] & Hin). apply list_elem_of_filter in Hin.
    cbn in Hin. exists m. tauto.
  - intros (m & -> & Hin & HE & Hl). exists (b, m). split; [done |].
    apply list_elem_of_filter. cbn. tauto.
Qed.

Lemma length_fresh E t history ns :
  (length (fresh E t history ns) <= length ns)%nat.
Proof. unfold fresh. rewrite length_fmap. apply length_filter. Qed.

Lemma next_eq s block history rest ns :
  next s block history rest ns =
    mkSolver (explored s ∪ {[block]})
             (rest ++ fresh (explored s ∪ {[block]}) (terrain s) history ns)
             (goal s) (start s) (terrain s).
Proof. unfold next. by rewrite for_neighbors_eq. Qed.

Lemma while_loop_step fuel s s' :
  step s s' → while_loop (S fuel) s = while_loop fuel s'.
Proof.
  intros [s0 block history rest ns Hq Hd Hn]. cbn [while_loop].
  rewrite Hq. change (done (set_fifo s0 rest) block) with (done s0 block).
  by rewrite Hd, Hn.
Qed.

(** The four neighbours of a well-formed block are its four tilts. *)
Lemma neighbors_elem block ns b m :
  wf block → neighbors block = Some ns →
  (b, m) ∈ ns ↔ tilt m block = Some b.
Proof.
  intros Hwf Hn.
  destruct (neighbors_wf block Hwf) as (l & r & u & d & Hn' & Hl & Hr & Hu & Hd).
  rewrite Hn' in Hn. injection Hn as <-.
  rewrite !elem_of_cons, elem_of_nil. split.
  - intros [[= -> ->] | [[= -> ->] | [[= -> ->] | [[= -> ->] | []]]]]; done.
  - destruct m; intros Ht; rewrite Ht in *; naive_solver.
Qed.

Lemma neighbors_length block ns :
  neighbors block = Some ns → length ns = 4%nat.
Proof.
  unfold neighbors. intros Hn.
  destruct (left block), (right block), (up block), (down block);
    cbn in Hn; try discriminate.
  by injection Hn as <-.
Qed.

Lemma done_iff s b : done s b = true ↔ b = standing (goal s).
Proof.
  unfold done. rewrite andb_true_iff, is_standing_true, bool_decide_eq_true.
  destruct b as [p q]; cbn. unfold standing. split.
  - intros [-> ->]. done.
  - intros [= -> ->]. done.
Qed.

(** ** Queue order *)

Lemma ordered_same k (q : list search_record) :
  Forall (λ r, length (snd r) = k) q → ordered q.
Proof.
  induction 1 as [| r q Hr Hq IH]; cbn; [done |]. split; [| done].
  eapply Forall_impl; [exact Hq |]. cbn. intros r' Hr'. lia.
Qed.

Lemma ordered_app k (q news : list search_record) :
  ordered q →
  Forall (λ r, (k <= length (snd r) <= k + 1)%nat) q →
  Forall (λ r, length (snd r) = (k + 1)%nat) news →
  ordered (q ++ news).
Proof.
  intros Ho Hb Hn. induction q as [| r q IH]; cbn.
  - by eapply ordered_same.
  - destruct Ho as [Hr Ho]. apply Forall_cons in Hb as [Hkr Hb].
    split; [| by apply IH].
    apply Forall_app. split; [done |].
    eapply Forall_impl; [exact Hn |]. cbn. intros r' Hr'. lia.
Qed.

Lemma ordered_front b h rest b' h' :
  ordered ((b, h) :: rest) → (b', h') ∈ (b, h) :: rest →
  (length h <= length h' <= length h + 1)%nat.
Proof.
  intros [Hall _] [[= -> ->] | Hin]%elem_of_cons; [lia |].
  rewrite Forall_forall in Hall. exact (Hall _ Hin).
Qed.

(** ** Leaving the explored set *)

(** A legal path from an expanded block to a block never expanded passes
    through a pending block, strictly closer to its end. *)
Lemma escape t (E : gset Block) (Q : list search_record) (T : Block) :
  (∀ b m b', b ∈ E → tilt m b = Some b' → legal t b' = true →
             b' ∈ E ∨ ∃ h, (b', h) ∈ Q) →
  T ∉ E →
  ∀ b P, b ∈ E → path t b P T →
  ∃ c hc P', (c, hc) ∈ Q ∧ path t c P' T ∧ (length P' < length P)%nat.
Proof.
  intros Hclosed HT b P Hb Hp.
  induction Hp as [| b m b' ms T Ht Hl Hp IH]; [done |].
  destruct (Hclosed b m b' Hb Ht Hl) as [Hin | [h Hin]].
  - destruct (IH HT Hin) as (c & hc & P' & Hc & Hp' & Hlen).
    exists c, hc, P'. cbn. repeat split; [done | done | lia].
  - exists b', h, ms. cbn. repeat split; [done | done | lia].
Qed.

(** ** The invariant *)

Lemma in_add_l (E : gset Block) b c : b ∈ E → b ∈ E ∪ {[c]}.
Proof. set_solver. Qed.

Lemma in_add_r (E : gset Block) b : b ∈ E ∪ {[b]}.
Proof. set_solver. Qed.

Section Invariant.
Variables (t : Pos → bool) (p0 g : Pos).

Lemma bfs_inv_put_start :
  bfs_inv t p0 g (put (init p0 g t) (standing p0, [])).
Proof.
  split; cbn; try done.
  - intros b h [[= -> ->] | []%elem_of_nil]%elem_of_cons. constructor.
  - intros P HP. exists (standing p0), [], P.
    split; [apply list_elem_of_here | by split].
  - by left.
Qed.

Lemma bfs_inv_front_wf s block history rest :
  bfs_inv t p0 g s → fifo s = (block, history) :: rest → wf block.
Proof.
  intros Hinv Hq. eapply reachable_wf. exists history.
  apply (inv_sound _ _ _ _ Hinv). rewrite Hq. apply list_elem_of_here.
Qed.

Lemma bfs_inv_step s s' : bfs_inv t p0 g s → step s s' → bfs_inv t p0 g s'.
Proof.
  intros Hinv Hstep.
  destruct Hstep as [s B0 H0 rest ns Hq Hd Hn].
  pose proof (bfs_inv_front_wf _ _ _ _ Hinv Hq) as Hwf.
  pose proof (neighbors_elem B0 ns) as Hns.
  destruct Hinv as [Hg Hs Ht Hsound Hord Hclosed Hgoal Hfront Hfirst].
  rewrite Hq in *.
  assert (HB0 : B0 ≠ standing g).
  { intros ->. rewrite <- Hg in Hd.
    by rewrite (proj2 (done_iff s _) eq_refl) in Hd. }
  rewrite next_eq, Ht.
  set (E' := explored s ∪ {[B0]}).
  set (Q' := rest ++ fresh E' t H0 ns).
  assert (Hlen : ∀ b h, (b, h) ∈ Q' →
            (length H0 <= length h <= length H0 + 1)%nat).
  { intros b h [Hin | Hin]%elem_of_app.
    - eapply ordered_front; [exact Hord | by apply list_elem_of_further].
    - apply elem_of_fresh in Hin as (m & -> & _). rewrite length_app. cbn. lia. }
  assert (Hclosed' : ∀ b m b',
            b ∈ E' → tilt m b = Some b' → legal t b' = true →
            b' ∈ E' ∨ ∃ h, (b', h) ∈ Q').
  { intros b m b' Hb Htilt Hlegal. subst E' Q'.
    destruct (decide (b' ∈ explored s ∪ {[B0]})) as [? | Hout]; [by left |].
    right. apply elem_of_union in Hb as [Hb | ->%elem_of_singleton].
    - destruct (Hclosed b m b' Hb Htilt Hlegal) as [? | [h Hin]];
        [by destruct Hout; apply in_add_l |].
      apply elem_of_cons in Hin as [[= -> ->] | Hin];
        [by destruct Hout; apply in_add_r |].
      exists h. apply elem_of_app. by left.
    - exists (H0 ++ [m]). apply elem_of_app. right.
      apply elem_of_fresh. exists m. by rewrite Hns. }
  assert (Hgoal' : standing g ∉ E').
  { intros [? | ?%elem_of_singleton]%elem_of_union; [done | congruence]. }
  split; cbn [goal start terrain fifo explored]; try done.
  - (* histories are paths *)
    intros b h [Hin | Hin]%elem_of_app.
    + apply Hsound. by apply list_elem_of_further.
    + apply elem_of_fresh in Hin as (m & -> & Hin & _ & Hlegal).
      apply Hns in Hin; [| done | done].
      eapply path_snoc; [| done | done].
      apply Hsound, list_elem_of_here.
  - (* queue order *)
    destruct Hord as [Hall Hord].
    apply (ordered_app (length H0)); [done | done |].
    apply Forall_forall. intros [b h] Hin.
    apply elem_of_fresh in Hin as (m & -> & _). cbn. rewrite length_app. cbn. lia.
  - (* a pending record on every shortest route *)
    intros P HP.
    destruct (Hfront P HP) as (b & h & P' & Hin & HP' & Hle).
    apply elem_of_cons in Hin as [[= -> ->] | Hin].
    + destruct (escape t E' Q' (standing g) Hclosed' Hgoal' B0 P')
        as (c & hc & P'' & Hc & HP'' & Hlt); [apply in_add_r | done |].
      exists c, hc, P''. repeat split; [done | done |].
      pose proof (Hlen c hc Hc). lia.
    + exists b, h, P'. repeat split; [| done | done].
      apply elem_of_app. by left.
  - (* empty histories *)
    right. split.
    + destruct Hfirst as [[_ [= -> _ _]] | [Hin _]];
        [apply in_add_r | by apply in_add_l].
    + intros b h [Hin | Hin]%elem_of_app.
      * destruct Hfirst as [[_ [= _ _ ->]] | [_ Hne]].
        -- by apply elem_of_nil in Hin.
        -- eapply Hne. by apply list_elem_of_further.
      * apply elem_of_fresh in Hin as (m & -> & _). by destruct H0.
Qed.
End Invariant.

(** ** Outcome of the loop under the invariant *)

Lemma while_loop_return t p0 g fuel s h s' :
  bfs_inv t p0 g s → while_loop fuel s = Return h s' →
  ∃ s_last, bfs_inv t p0 g s_last ∧
    ((fifo s_last = [] ∧ h = [] ∧ s' = s_last) ∨
     (∃ block rest, fifo s_last = (block, h) :: rest ∧
                    done s_last block = true ∧ s' = set_fifo s_last rest)).
Proof.
  revert s. induction fuel as [| fuel IH]; intros s Hinv Hrun; [done |].
  cbn [while_loop] in Hrun.
  destruct (fifo s) as [| [block history] rest] eqn:Hq.
  - injection Hrun as <- <-. exists s. by split; [| left].
  - change (done (set_fifo s rest) block) with (done s block) in Hrun.
    destruct (done s block) eqn:Hd.
    + injection Hrun as <- <-. exists s. split; [done |]. right.
      by exists block, rest.
    + destruct (neighbors block) as [ns |] eqn:Hn; [| done].
      apply (IH (next s block history rest ns)); [| done].
      eapply bfs_inv_step; [done |]. by constructor.
Qed.

(** More fuel does not change what a call returns. *)
Lemma while_loop_more_fuel fuel fuel' s h s' :
  (fuel <= fuel')%nat → while_loop fuel s = Return h s' →
  while_loop fuel' s = Return h s'.
Proof.
  revert fuel' s. induction fuel as [| fuel IH]; intros fuel' s Hle Hrun; [done |].
  destruct fuel' as [| fuel']; [lia |].
  cbn [while_loop] in *.
  destruct (fifo s) as [| [block history] rest]; [done |].
  destruct (done _ block); [done |].
  destruct (neighbors block); [| done].
  apply IH; [lia | done].
Qed.

(** ** Termination *)

Lemma pot_mono n m : (n <= m)%nat → (pot n <= pot m)%nat.
Proof. induction 1; cbn; lia. Qed.

Lemma sum_list_with_le {A} (f f' : A → nat) (l : list A) :
  (∀ x, x ∈ l → (f x <= f' x)%nat) →
  (sum_list_with f l <= sum_list_with f' l)%nat.
Proof.
  induction l as [| x l IH]; intros Hle; cbn; [done |].
  pose proof (Hle x (list_elem_of_here _ _)).
  assert (sum_list_with f l <= sum_list_with f' l)%nat.
  { apply IH. intros y Hy. apply Hle. by apply list_elem_of_further. }
  lia.
Qed.

Lemma sum_list_with_bound {A} (f : A → nat) (c : nat) (l : list A) :
  (∀ x, x ∈ l → (f x <= c)%nat) →
  (sum_list_with f l <= length l * c)%nat.
Proof.
  induction l as [| x l IH]; intros Hle; cbn; [done |].
  pose proof (Hle x (list_elem_of_here _ _)).
  assert (sum_list_with f l <= length l * c)%nat.
  { apply IH. intros y Hy. apply Hle. by apply list_elem_of_further. }
  lia.
Qed.

Lemma size_unexplored_add (X E : gset Block) b :
  b ∈ X → b ∉ E → size (X ∖ E) = S (size (X ∖ (E ∪ {[b]}))).
Proof.
  intros HX HE.
  assert (Hsplit : X ∖ E = {[b]} ∪ X ∖ (E ∪ {[b]})).
  { apply set_eq. intros c. rewrite elem_of_union, !elem_of_difference,
      elem_of_union, elem_of_singleton.
    destruct (decide (c = b)) as [-> | ?]; tauto. }
  rewrite Hsplit, size_union, size_singleton; [done |].
  apply disjoint_singleton_l. rewrite elem_of_difference, elem_of_union,
    elem_of_singleton. tauto.
Qed.

Lemma add_explored_again (E : gset Block) b : b ∈ E → E ∪ {[b]} = E.
Proof.
  intros Hb. apply set_eq. intros c.
  rewrite elem_of_union, elem_of_singleton. split; [| by left].
  by intros [? | ->].
Qed.

Lemma measure_step X t p0 g s s' :
  (∀ b, reachable t p0 b → b ∈ X) →
  bfs_inv t p0 g s → step s s' →
  (measure X (explored s') (fifo s') < measure X (explored s) (fifo s))%nat.
Proof.
  intros HX Hinv Hstep.
  destruct Hstep as [s B0 H0 rest ns Hq Hd Hn].
  assert (HB0 : B0 ∈ X).
  { apply HX. exists H0. apply (inv_sound _ _ _ _ Hinv).
    rewrite Hq. apply list_elem_of_here. }
  rewrite next_eq, Hq. cbn [explored fifo].
  set (E := explored s). set (E' := E ∪ {[B0]}).
  unfold measure. rewrite sum_list_with_app. cbn [sum_list_with].
  assert (Hnew : (sum_list_with (weight X E') (fresh E' (terrain s) H0 ns)
                  <= 4 * pot (size (X ∖ E')))%nat).
  { etrans; [apply (sum_list_with_bound _ (pot (size (X ∖ E')))) |].
    - intros [b h] (m & _ & _ & Hout & _)%elem_of_fresh.
      unfold weight. cbn. by rewrite decide_False.
    - pose proof (length_fresh E' (terrain s) H0 ns) as Hlen.
      rewrite (neighbors_length _ _ Hn) in Hlen.
      apply Nat.mul_le_mono_r. exact Hlen. }
  destruct (decide (B0 ∈ E)) as [Hin | Hout].
  - assert (HE : E' = E) by by apply add_explored_again.
    rewrite HE in *.
    assert (Hfront : weight X E (B0, H0) = pot (S (size (X ∖ E)))).
    { unfold weight. cbn [fst]. by rewrite decide_True. }
    rewrite Hfront. cbn [pot]. lia.
  - pose proof (size_unexplored_add X E B0 HB0 Hout) as Hsize.
    fold E' in Hsize.
    assert (Hold : (sum_list_with (weight X E') rest
                    <= sum_list_with (weight X E) rest)%nat).
    { apply sum_list_with_le. intros [b h] _. unfold weight. cbn [fst].
      rewrite Hsize.
      destruct (decide (b ∈ E')) as [Hb' | Hb'];
        destruct (decide (b ∈ E)) as [Hb | Hb].
      - apply pot_mono. lia.
      - done.
      - destruct Hb'. by apply in_add_l.
      - apply pot_mono. lia. }
    assert (Hfront : weight X E (B0, H0) = pot (S (size (X ∖ E')))).
    { unfold weight. cbn [fst]. by rewrite decide_False, Hsize. }
    rewrite Hfront. cbn [pot]. lia.
Qed.

Lemma while_loop_terminates X t p0 g fuel s :
  (∀ b, reachable t p0 b → b ∈ X) →
  bfs_inv t p0 g s →
  (measure X (explored s) (fifo s) < fuel)%nat →
  ∃ h s', while_loop fuel s = Return h s'.
Proof.
  intros HX. revert s.
  induction fuel as [| fuel IH]; intros s Hinv Hlt; [lia |].
  cbn [while_loop].
  destruct (fifo s) as [| [block history] rest] eqn:Hq; [by eauto |].
  change (done (set_fifo s rest) block) with (done s block).
  destruct (done s block) eqn:Hd; [by eauto |].
  pose proof (bfs_inv_front_wf _ _ _ _ _ _ _ Hinv Hq) as Hwf.
  destruct (neighbors_wf block Hwf) as (l & r & u & d & Hn & _).
  rewrite Hn.
  assert (Hstep : step s (next s block history rest
                    [(l, LEFT); (r, RIGHT); (u, UP); (d, DOWN)]))
    by by constructor.
  apply IH.
  - by eapply bfs_inv_step.
  - pose proof (measure_step X t p0 g _ _ HX Hinv Hstep) as Hm.
    rewrite Hq in Hm. unfold next in Hm. lia.
Qed.

(** ** The first call on a new solver *)

Lemma solve_init fuel p0 g t :
  solve fuel (init p0 g t) =
    while_loop fuel (put (init p0 g t) (standing p0, [])).
Proof. unfold solve. cbn [start init]. by rewrite mkBlock_Some. Qed.

Lemma solve_more_fuel fuel fuel' s h s' :
  (fuel <= fuel')%nat → solve fuel s = Return h s' → solve fuel' s = Return h s'.
Proof.
  unfold solve. destruct (mkBlock (start s) (start s)); [| done].
  apply while_loop_more_fuel.
Qed.

Lemma solve_init_terminates t p0 g :
  finite_reach t p0 →
  ∃ fuel h s', solve fuel (init p0 g t) = Return h s'.
Proof.
  intros [X HX].
  set (s := put (init p0 g t) (standing p0, [])).
  exists (S (measure X (explored s) (fifo s))).
  rewrite solve_init.
  apply (while_loop_terminates X t p0 g);
    [done | apply bfs_inv_put_start | apply Nat.lt_succ_diag_r].
Qed.

(** What the first call returns is the history of a pending record whose
    block is the standing goal and which is first in the queue, or the
    empty list once the queue has drained. *)
Lemma solve_init_return t p0 g fuel h s' :
  solve fuel (init p0 g t) = Return h s' →
  ∃ s_last, bfs_inv t p0 g s_last ∧
    ((fifo s_last = [] ∧ h = [] ∧ s' = s_last) ∨
     (∃ rest, fifo s_last = (standing g, h) :: rest ∧
              s' = set_fifo s_last rest)).
Proof.
  rewrite solve_init. intros Hrun.
  destruct (while_loop_return t p0 g _ _ _ _ (bfs_inv_put_start t p0 g) Hrun)
    as (s_last & Hinv & [Hdrain | (block & rest & Hq & Hd & Hs')]).
  - exists s_last. split; [done |]. by left.
  - exists s_last. split; [done |]. right. exists rest.
    apply done_iff in Hd. rewrite (inv_goal _ _ _ _ Hinv) in Hd. by subst.
Qed.

(** Finitely many traversable cells give finitely many reachable blocks. *)
Lemma finite_reach_cells t p0 (cells : list Pos) :
  (∀ p, t p = true → p ∈ cells) → finite_reach t p0.
Proof.
  intros Hcells.
  exists ({[standing p0]} ∪ list_to_set (p ← cells; q ← cells; [BlockOf p q])).
  intros b [ms Hp]. apply elem_of_union.
  destruct (path_end_legal _ _ _ _ Hp) as [-> | Hl];
    [left; by apply elem_of_singleton |].
  right. apply elem_of_list_to_set. unfold legal in Hl.
  apply andb_true_iff in Hl as [H1 H2].
  apply list_elem_of_bind. exists (b1 b). split; [| by apply Hcells].
  apply list_elem_of_bind. exists (b2 b). split; [| by apply Hcells].
  destruct b. apply list_elem_of_here.
Qed.

(** ** The single row of four cells *)

Lemma row4_cells p :
  row4 p = true → p ∈ [mkPos 0 0; mkPos 0 1; mkPos 0 2; mkPos 0 3].
Proof.
  destruct p as [r c]. unfold row4. cbn.
  rewrite andb_true_iff, !bool_decide_eq_true. intros [-> Hc].
  assert (Hcases : c = 0 ∨ c = 1 ∨ c = 2 ∨ c = 3) by lia.
  rewrite !elem_of_cons.
  destruct Hcases as [-> | [-> | [-> | ->]]]; auto 6.
Qed.

Lemma row4_finite p0 : finite_reach row4 p0.
Proof. eapply finite_reach_cells, row4_cells. Qed.

Lemma row4_solvable : solvable row4 (mkPos 0 0) (mkPos 0 3).
Proof.
  exists [RIGHT; RIGHT].
  eapply path_cons; [reflexivity | reflexivity |].
  eapply path_cons; [reflexivity | reflexivity |].
  apply path_nil.
Qed.

(** From the left end of the row the block only ever stands on the two
    ends or lies on the two middle cells. *)
Lemma row4_reach ms b :
  path row4 (standing (mkPos 0 0)) ms b →
  b = standing (mkPos 0 0) ∨ b = BlockOf (mkPos 0 1) (mkPos 0 2) ∨
  b = standing (mkPos 0 3).
Proof.
  assert (Hgen : ∀ b0 ms b,
    path row4 b0 ms b →
    b0 = standing (mkPos 0 0) ∨ b0 = BlockOf (mkPos 0 1) (mkPos 0 2) ∨
    b0 = standing (mkPos 0 3) →
    b = standing (mkPos 0 0) ∨ b = BlockOf (mkPos 0 1) (mkPos 0 2) ∨
    b = standing (mkPos 0 3)).
  { clear. intros b0 ms b Hp.
    induction Hp as [| b0 m c ms b Ht Hl Hp IH]; [done |].
    intros Hb0. apply IH. clear IH Hp.
    destruct Hb0 as [-> | [-> | ->]]; destruct m;
      vm_compute in Ht; injection Ht as <-;
      vm_compute in Hl; try discriminate; auto. }
  intros Hp. eapply Hgen; [exact Hp | by left].
Qed.

Lemma row4_unsolvable : ¬ solvable row4 (mkPos 0 0) (mkPos 0 2).
Proof.
  intros [ms Hp]. by destruct (row4_reach ms _ Hp) as [? | [? | ?]].
Qed.

(** ** The search *)

(** C6: when finitely many configurations are reachable from the standing
    start by legal tilts, [solve] returns after finitely many loop tests;
    more fuel changes nothing. *)
Theorem solve_terminates (t : Pos → bool) (p0 g : Pos)
    (Hfin : finite_reach t p0) :
  ∃ fuel h s', ∀ fuel', (fuel <= fuel')%nat →
    solve fuel' (init p0 g t) = Return h s'.
Proof.
  destruct (solve_init_terminates t p0 g Hfin) as (fuel & h & s' & Hrun).
  exists fuel, h, s'. intros fuel' Hle. by eapply solve_more_fuel.
Qed.

Lemma solve_terminates_witness :
  finite_reach row4 (mkPos 0 0) ∧
  ∃ fuel h s', ∀ fuel', (fuel <= fuel')%nat →
    solve fuel' (init (mkPos 0 0) (mkPos 0 3) row4) = Return h s'.
Proof.
  split; [apply row4_finite |].
  apply (solve_terminates row4 (mkPos 0 0) (mkPos 0 3)), row4_finite.
Defined.

(** C1: for a solvable input with finitely many reachable configurations,
    [solve] returns a move sequence whose length is the graph distance from
    the standing start to the standing goal. *)
Theorem solve_shortest (t : Pos → bool) (p0 g : Pos)
    (Hfin : finite_reach t p0) (Hsolv : solvable t p0 g) :
  ∃ fuel h s',
    (∀ fuel', (fuel <= fuel')%nat → solve fuel' (init p0 g t) = Return h s') ∧
    distance t p0 g (length h).
Proof.
  destruct (solve_init_terminates t p0 g Hfin) as (fuel & h & s' & Hrun).
  exists fuel, h, s'. split; [intros fuel' Hle; by eapply solve_more_fuel |].
  destruct (solve_init_return _ _ _ _ _ _ Hrun)
    as (s_last & Hinv & [(Hq & _ & _) | (rest & Hq & _)]).
  - destruct Hsolv as [P HP].
    destruct (inv_front _ _ _ _ Hinv P HP) as (b & hb & _ & Hin & _).
    rewrite Hq in Hin. by apply elem_of_nil in Hin.
  - split.
    + exists h. split; [| done]. apply (inv_sound _ _ _ _ Hinv).
      rewrite Hq. apply list_elem_of_here.
    + intros P HP.
      destruct (inv_front _ _ _ _ Hinv P HP) as (b & hb & P' & Hin & _ & Hle).
      pose proof (inv_ordered _ _ _ _ Hinv) as Hord.
      rewrite Hq in Hin, Hord.
      pose proof (ordered_front _ _ _ _ _ Hord Hin). lia.
Qed.

Lemma solve_shortest_witness :
  finite_reach row4 (mkPos 0 0) ∧ solvable row4 (mkPos 0 0) (mkPos 0 3) ∧
  ∃ fuel h s',
    (∀ fuel', (fuel <= fuel')%nat →
       solve fuel' (init (mkPos 0 0) (mkPos 0 3) row4) = Return h s') ∧
    distance row4 (mkPos 0 0) (mkPos 0 3) (length h).
Proof.
  split; [apply row4_finite |]. split; [apply row4_solvable |].
  apply (solve_shortest row4 (mkPos 0 0) (mkPos 0 3));
    [apply row4_finite | apply row4_solvable].
Defined.

(** C3: the moves [solve] returns can be applied one after the other from
    the standing start, and after each move both cells of the block satisfy
    the terrain predicate. *)
Theorem solve_moves_legal (t : Pos → bool) (p0 g : Pos) (fuel : nat)
    (h : list Move) (s' : Solver)
    (Hrun : solve fuel (init p0 g t) = Return h s') :
  ∃ bs, walk (standing p0) h = Some bs ∧ length bs = length h ∧
        Forall (λ c, t (b1 c) = true ∧ t (b2 c) = true) bs.
Proof.
  assert (Hp : ∃ b, path t (standing p0) h b).
  { destruct (solve_init_return _ _ _ _ _ _ Hrun)
      as (s_last & Hinv & [(_ & -> & _) | (rest & Hq & _)]).
    - eexists. constructor.
    - exists (standing g). apply (inv_sound _ _ _ _ Hinv).
      rewrite Hq. apply list_elem_of_here. }
  destruct Hp as [b Hp].
  destruct (path_walk _ _ _ _ Hp) as (bs & Hw & Hall).
  exists bs. split; [done |]. split; [by eapply walk_length |].
  eapply Forall_impl; [exact Hall |]. cbn. intros c Hc.
  by apply andb_true_iff.
Qed.

Lemma solve_moves_legal_witness :
  ∃ s', solve 4 (init (mkPos 0 0) (mkPos 0 3) grid3x4) = Return [RIGHT; RIGHT] s' ∧
    ∃ bs, walk (standing (mkPos 0 0)) [RIGHT; RIGHT] = Some bs ∧
          length bs = 2%nat ∧
          Forall (λ c, grid3x4 (b1 c) = true ∧ grid3x4 (b2 c) = true) bs.
Proof.
  assert (Hrun : ∃ s', solve 4 (init (mkPos 0 0) (mkPos 0 3) grid3x4)
                       = Return [RIGHT; RIGHT] s')
    by (vm_compute; eauto).
  destruct Hrun as [s' Hrun]. exists s'. split; [exact Hrun |].
  exact (solve_moves_legal _ _ _ _ _ _ Hrun).
Defined.

(** C9: on the terrain with rows 0-2 and columns 0-3, from (0,0) to (0,3),
    [solve] returns exactly [RIGHT; RIGHT]; four loop tests suffice. *)
Theorem solve_grid3x4 (n : nat) :
  returned (solve (4 + n) (init (mkPos 0 0) (mkPos 0 3) grid3x4))
    = Some [RIGHT; RIGHT].
Proof.
  assert (Hrun : ∃ s', solve 4 (init (mkPos 0 0) (mkPos 0 3) grid3x4)
                       = Return [RIGHT; RIGHT] s')
    by (vm_compute; eauto).
  destruct Hrun as [s' Hrun].
  by rewrite (solve_more_fuel 4 (4 + n) _ _ _ (Nat.le_add_r 4 n) Hrun).
Qed.

(** C10: with the goal equal to the start, [solve] returns the empty list
    whatever the terrain says, also about the start cell itself: the goal
    test on the first record comes before any terrain query.  The queue is
    empty again and nothing has been explored. *)
Theorem solve_start_is_goal (p : Pos) (t : Pos → bool) (fuel : nat) :
  solve (S fuel) (init p p t) = Return [] (init p p t) ∧
  returned (solve (S fuel) (init p p (λ _, true))) = Some [].
Proof.
  assert (Hgen : ∀ t', solve (S fuel) (init p p t') = Return [] (init p p t')).
  { intros t'. rewrite solve_init. cbn [while_loop put init fifo set_fifo app].
    assert (Hd : ∀ s, goal s = p → done s (standing p) = true).
    { intros s Hs. apply done_iff. by rewrite Hs. }
    by rewrite Hd. }
  split; [apply Hgen |]. by rewrite Hgen.
Qed.

(** ** Calling [solve] again on the same object *)

Lemma fresh_nil E t history ns :
  (∀ b m, (b, m) ∈ ns → legal t b = true → b ∈ E) →
  fresh E t history ns = [].
Proof.
  intros Hall. apply elem_of_nil_inv. intros [b h] Hin.
  apply elem_of_fresh in Hin as (m & _ & Hin & Hout & Hl).
  by apply Hout, (Hall b m).
Qed.

(** C5, as the code has it: the explored set and the queue are created
    empty by the constructor and stay on the object when [solve] returns, so
    a second call on the same object starts from what the first one left.
    When the first call on a new solver returned the empty list, the second
    call returns the empty list as well. *)
Theorem solve_again_after_empty (t : Pos → bool) (p0 g : Pos) (fuel : nat)
    (s1 : Solver) :
  explored (init p0 g t) = ∅ ∧ fifo (init p0 g t) = [] ∧
  (solve fuel (init p0 g t) = Return [] s1 →
   ∀ fuel2, (2 <= fuel2)%nat → ∃ s2, solve fuel2 s1 = Return [] s2).
Proof.
  split; [done |]. split; [done |].
  intros Hrun fuel2 Hfuel.
  destruct fuel2 as [| [| n]]; [lia | lia |].
  destruct (solve_init_return _ _ _ _ _ _ Hrun)
    as (s_last & Hinv & [(Hq & _ & ->) | (rest & Hq & ->)]).
  - (* the queue had drained *)
    pose proof (inv_start _ _ _ _ Hinv) as Hstart.
    pose proof (inv_terrain _ _ _ _ Hinv) as Hterrain.
    unfold solve. rewrite Hstart, mkBlock_Some by done.
    change (BlockOf p0 p0) with (standing p0).
    cbn [while_loop put fifo set_fifo]. rewrite Hq. cbn [app].
    change (done _ (standing p0)) with (done s_last (standing p0)).
    destruct (done s_last (standing p0)); [by eauto |].
    destruct (neighbors_wf _ (wf_standing p0)) as (l & r & u & d & Hn & _).
    rewrite Hn. rewrite for_neighbors_eq.
    cbn [fifo explored terrain add_explored set_fifo app].
    rewrite fresh_nil; [cbn; by eauto |].
    intros b m Hin Hl. cbn [terrain explored put set_fifo] in Hl |- *.
    rewrite Hterrain in Hl.
    apply (neighbors_elem _ _ b m (wf_standing p0) Hn) in Hin.
    destruct (inv_first _ _ _ _ Hinv) as [[_ Hq'] | [Hs0 _]];
      [by rewrite Hq in Hq' |].
    destruct (inv_closed _ _ _ _ Hinv _ _ _ Hs0 Hin Hl) as [Hb | [h Hb]].
    + by apply in_add_l.
    + rewrite Hq in Hb. by apply elem_of_nil in Hb.
  - (* the first record was the goal: nothing had been enqueued *)
    destruct (inv_first _ _ _ _ Hinv) as [[_ Hq'] | [_ Hne]].
    + rewrite Hq in Hq'.
      assert (Hg : g = p0 ∧ rest = []) by (injection Hq'; auto).
      destruct Hg as [-> ->].
      pose proof (inv_start _ _ _ _ Hinv) as Hstart.
      unfold solve. cbn [start set_fifo]. rewrite Hstart.
      rewrite mkBlock_Some by done.
      change (BlockOf p0 p0) with (standing p0).
      cbn [while_loop put fifo set_fifo app].
      assert (Hd : ∀ s, goal s = goal s_last → done s (standing p0) = true).
      { intros s Hs. apply done_iff.
        by rewrite Hs, (inv_goal _ _ _ _ Hinv). }
      rewrite Hd by done. by eauto.
    + destruct (Hne (standing g) []); [| done].
      rewrite Hq. apply list_elem_of_here.
Qed.

Lemma solve_again_after_empty_witness :
  ∃ s1, solve 4 (init (mkPos 0 0) (mkPos 0 2) row4) = Return [] s1 ∧
        ∃ s2, solve 2 s1 = Return [] s2.
Proof.
  assert (Hrun : ∃ s1, solve 4 (init (mkPos 0 0) (mkPos 0 2) row4) = Return [] s1)
    by (vm_compute; eauto).
  destruct Hrun as [s1 Hrun]. exists s1. split; [exact Hrun |].
  exact (proj2 (proj2 (solve_again_after_empty _ _ _ _ _)) Hrun 2%nat (le_n 2)).
Defined.

(** C5 fails as stated: on the single row, the first call returns
    [RIGHT; RIGHT] and the second call on the same object returns the
    empty list. *)
Lemma solve_twice_differs :
  solve_twice 4 (init (mkPos 0 0) (mkPos 0 3) row4)
    = Some ([RIGHT; RIGHT], []) ∧
  [RIGHT; RIGHT] ≠ ([] : list Move).
Proof. split; [by vm_compute | discriminate]. Qed.

(** ** More on the geometry *)

Ltac block_eq :=
  cbn; unfold standing, PosOps.drow, PosOps.dcol; cbn;
  apply (f_equal Some); apply (f_equal2 BlockOf); apply (f_equal2 mkPos); lia.

Lemma tilt_s r c m :
  tilt m (standing (mkPos r c)) =
    Some match m with
         | LEFT => BlockOf (mkPos r (c - 2)) (mkPos r (c - 1))
         | RIGHT => BlockOf (mkPos r (c + 1)) (mkPos r (c + 2))
         | UP => BlockOf (mkPos (r - 2) c) (mkPos (r - 1) c)
         | DOWN => BlockOf (mkPos (r + 1) c) (mkPos (r + 2) c)
         end.
Proof. rewrite tilt_standing. destruct m; block_eq. Qed.

Lemma tilt_h r c c' m :
  c' = c + 1 →
  tilt m (BlockOf (mkPos r c) (mkPos r c')) =
    Some match m with
         | LEFT => standing (mkPos r (c - 1))
         | RIGHT => standing (mkPos r (c + 2))
         | UP => BlockOf (mkPos (r - 1) c) (mkPos (r - 1) (c + 1))
         | DOWN => BlockOf (mkPos (r + 1) c) (mkPos (r + 1) (c + 1))
         end.
Proof.
  intros ->.
  assert (Hh : lying_h (BlockOf (mkPos r c) (mkPos r (c + 1)))) by by split.
  destruct (tilt_lying_h _ Hh) as (Hl & Hr & Hu & Hd).
  destruct m; [rewrite Hu | rewrite Hr | rewrite Hd | rewrite Hl]; block_eq.
Qed.

Lemma tilt_v r r' c m :
  r' = r + 1 →
  tilt m (BlockOf (mkPos r c) (mkPos r' c)) =
    Some match m with
         | UP => standing (mkPos (r - 1) c)
         | DOWN => standing (mkPos (r + 2) c)
         | LEFT => BlockOf (mkPos r (c - 1)) (mkPos (r + 1) (c - 1))
         | RIGHT => BlockOf (mkPos r (c + 1)) (mkPos (r + 1) (c + 1))
         end.
Proof.
  intros ->.
  assert (Hv : lying_v (BlockOf (mkPos r c) (mkPos (r + 1) c))) by by split.
  destruct (tilt_lying_v _ Hv) as (Hu & Hd & Hl & Hr).
  destruct m; [rewrite Hu | rewrite Hr | rewrite Hd | rewrite Hl]; block_eq.
Qed.

Lemma tilt_back b b' m :
  wf b → tilt m b = Some b' → tilt (opposite m) b' = Some b.
Proof.
  intros Hwf Ht.
  destruct b as [[r c] [r2 c2]].
  destruct Hwf as [Hs | [[Hrow Hcol] | [Hcol Hrow]]]; cbn in *.
  - injection Hs as <- <-.
    change (BlockOf (mkPos r c) (mkPos r c)) with (standing (mkPos r c)) in *.
    rewrite tilt_s in Ht. injection Ht as <-.
    destruct m; cbn [opposite].
    + rewrite tilt_v by lia. block_eq.
    + rewrite tilt_h by lia. block_eq.
    + rewrite tilt_v by lia. block_eq.
    + rewrite tilt_h by lia. block_eq.
  - subst r2. rewrite tilt_h in Ht by done. injection Ht as <-.
    destruct m; cbn [opposite].
    + rewrite tilt_h by lia. block_eq.
    + rewrite tilt_s. block_eq.
    + rewrite tilt_h by lia. block_eq.
    + rewrite tilt_s. block_eq.
  - subst c2. rewrite tilt_v in Ht by done. injection Ht as <-.
    destruct m; cbn [opposite].
    + rewrite tilt_s. block_eq.
    + rewrite tilt_v by lia. block_eq.
    + rewrite tilt_s. block_eq.
    + rewrite tilt_v by lia. block_eq.
Qed.

(** X1: tilting a well-formed block and then tilting the result the
    opposite way gives the block back. *)
Theorem tilt_opposite (b b' : Block) (m : Move)
    (Hwf : wf b) (Ht : tilt m b = Some b') :
  tilt (opposite m) b' = Some b.
Proof. by apply tilt_back. Qed.

Lemma tilt_opposite_witness :
  wf (standing (mkPos 2 2)) ∧
  tilt LEFT (standing (mkPos 2 2)) = Some (BlockOf (mkPos 2 0) (mkPos 2 1)) ∧
  tilt RIGHT (BlockOf (mkPos 2 0) (mkPos 2 1)) = Some (standing (mkPos 2 2)).
Proof.
  assert (Hwf : wf (standing (mkPos 2 2))) by apply wf_standing.
  assert (Ht : tilt LEFT (standing (mkPos 2 2))
               = Some (BlockOf (mkPos 2 0) (mkPos 2 1))) by reflexivity.
  split; [exact Hwf |]. split; [exact Ht |].
  exact (tilt_opposite _ _ LEFT Hwf Ht).
Defined.

(** X2: two tilts in the same direction carry a standing block three
    cells further, standing again. *)
Theorem tilt_twice_standing (p : Pos) (m : Move) :
  tilt m (standing p) ≫= tilt m = Some (standing (shift m 3 p)).
Proof.
  destruct p as [r c]. rewrite tilt_s. cbn [mbind option_bind].
  destruct m; [rewrite tilt_v by lia | rewrite tilt_h by lia
              | rewrite tilt_v by lia | rewrite tilt_h by lia]; block_eq.
Qed.

(** X3: a block that passed the assertion of the constructor, well-formed
    or not, can be tilted in every direction without the assertion failing,
    so [neighbors] never raises on a constructed block. *)
Theorem tilt_total_constructed (p q : Pos) (b : Block)
    (Hb : mkBlock p q = Some b) :
  (∀ m, is_Some (tilt m b)) ∧ is_Some (neighbors b).
Proof.
  assert (Hord : row p <= row q ∧ col p <= col q).
  { destruct (decide (row p <= row q ∧ col p <= col q)) as [? | Hn]; [done |].
    apply mkBlock_None in Hn. congruence. }
  rewrite mkBlock_Some in Hb by tauto. injection Hb as <-.
  destruct p as [r c], q as [r2 c2]. cbn in Hord.
  assert (Hall : ∀ m, is_Some (tilt m (BlockOf (mkPos r c) (mkPos r2 c2)))).
  { intros m.
    destruct (is_standing (BlockOf (mkPos r c) (mkPos r2 c2))) eqn:Hs.
    - apply is_standing_true in Hs. cbn in Hs. injection Hs as <- <-.
      change (BlockOf (mkPos r c) (mkPos r c)) with (standing (mkPos r c)).
      rewrite tilt_s. by eauto.
    - apply is_standing_false in Hs as Hne. cbn in Hne.
      destruct (bool_decide (row (b1 (BlockOf (mkPos r c) (mkPos r2 c2)))
                             = row (b2 (BlockOf (mkPos r c) (mkPos r2 c2)))))
        eqn:Hr.
      + apply bool_decide_eq_true in Hr as Hrow. cbn in Hrow. subst r2.
        assert (c ≠ c2) by congruence.
        destruct m; tilt_known; cbn [b1 b2 row col];
          rewrite mkBlock_Some by (cbn; lia); by eauto.
      + apply bool_decide_eq_false in Hr as Hrow. cbn in Hrow.
        destruct m; tilt_known; cbn [b1 b2 row col];
          rewrite mkBlock_Some by (cbn; lia); by eauto. }
  split; [done |].
  destruct (Hall LEFT) as [l Hl], (Hall RIGHT) as [r' Hr'],
    (Hall UP) as [u Hu], (Hall DOWN) as [d Hd].
  unfold neighbors. cbn in Hl, Hr', Hu, Hd. rewrite Hl, Hr', Hu, Hd. by eauto.
Qed.

Lemma tilt_total_constructed_witness :
  mkBlock (mkPos 0 0) (mkPos 5 5) = Some (BlockOf (mkPos 0 0) (mkPos 5 5)) ∧
  (∀ m, is_Some (tilt m (BlockOf (mkPos 0 0) (mkPos 5 5)))) ∧
  is_Some (neighbors (BlockOf (mkPos 0 0) (mkPos 5 5))).
Proof.
  assert (Hb : mkBlock (mkPos 0 0) (mkPos 5 5)
               = Some (BlockOf (mkPos 0 0) (mkPos 5 5))) by reflexivity.
  split; [exact Hb |].
  exact (tilt_total_constructed _ _ _ Hb).
Defined.

(** ** What every call keeps *)

Lemma call_inv_init t p0 g : call_inv t p0 g (init p0 g t).
Proof.
  split; cbn; try done.
  by intros b h ?%elem_of_nil.
Qed.

Lemma call_inv_put_start t p0 g s :
  call_inv t p0 g s → call_inv t p0 g (put s (standing p0, [])).
Proof.
  intros [Hg Hs Ht Hsound Hexp]. split; cbn; try done.
  intros b h [Hin | Hin]%elem_of_app; [by apply Hsound |].
  apply elem_of_cons in Hin as [[= -> ->] | Hin]; [constructor |].
  by apply elem_of_nil in Hin.
Qed.

Lemma call_inv_drop t p0 g s r rest :
  call_inv t p0 g s → fifo s = r :: rest → call_inv t p0 g (set_fifo s rest).
Proof.
  intros [Hg Hs Ht Hsound Hexp] Hq. split; cbn; try done.
  intros b h Hin. apply Hsound. rewrite Hq. by apply list_elem_of_further.
Qed.

Lemma call_inv_step t p0 g s s' :
  call_inv t p0 g s → step s s' → call_inv t p0 g s'.
Proof.
  intros [Hg Hs Ht Hsound Hexp] Hstep.
  destruct Hstep as [s B0 H0 rest ns Hq Hd Hn].
  assert (HB0 : path t (standing p0) H0 B0).
  { apply Hsound. rewrite Hq. apply list_elem_of_here. }
  assert (Hwf : wf B0) by (eapply reachable_wf; by exists H0).
  rewrite next_eq, Ht. split; cbn [goal start terrain fifo explored]; try done.
  - intros b h [Hin | Hin]%elem_of_app.
    + apply Hsound. rewrite Hq. by apply list_elem_of_further.
    + apply elem_of_fresh in Hin as (m & -> & Hin & _ & Hlegal).
      apply (neighbors_elem B0 ns b m Hwf Hn) in Hin.
      by eapply path_snoc.
  - intros b [Hb | ->%elem_of_singleton]%elem_of_union; [by apply Hexp |].
    split; [by exists H0 |].
    intros ->. rewrite <- Hg in Hd.
    by rewrite (proj2 (done_iff s _) eq_refl) in Hd.
Qed.

Lemma while_loop_call_inv t p0 g fuel s h s' :
  call_inv t p0 g s → while_loop fuel s = Return h s' →
  call_inv t p0 g s' ∧ (h = [] ∨ path t (standing p0) h (standing g)).
Proof.
  revert s. induction fuel as [| fuel IH]; intros s Hinv Hrun; [done |].
  cbn [while_loop] in Hrun.
  destruct (fifo s) as [| [block history] rest] eqn:Hq.
  - injection Hrun as <- <-. split; [done | by left].
  - change (done (set_fifo s rest) block) with (done s block) in Hrun.
    destruct (done s block) eqn:Hd.
    + injection Hrun as <- <-. split; [by eapply call_inv_drop |].
      right. apply done_iff in Hd. rewrite (call_goal _ _ _ _ Hinv) in Hd.
      subst block. apply (call_sound _ _ _ _ Hinv).
      rewrite Hq. apply list_elem_of_here.
    + destruct (neighbors block) as [ns |] eqn:Hn; [| done].
      apply (IH (next s block history rest ns)); [| done].
      eapply call_inv_step; [done |]. by constructor.
Qed.

Lemma while_loop_no_assert t p0 g fuel s :
  call_inv t p0 g s → while_loop fuel s ≠ AssertionError.
Proof.
  revert s. induction fuel as [| fuel IH]; intros s Hinv; [done |].
  cbn [while_loop].
  destruct (fifo s) as [| [block history] rest] eqn:Hq; [done |].
  change (done (set_fifo s rest) block) with (done s block).
  destruct (done s block) eqn:Hd; [done |].
  assert (Hwf : wf block).
  { eapply reachable_wf. exists history. apply (call_sound _ _ _ _ Hinv).
    rewrite Hq. apply list_elem_of_here. }
  destruct (neighbors_wf block Hwf) as (l & r & u & d & Hn & _).
  rewrite Hn.
  apply (IH (next s block history rest [(l, LEFT); (r, RIGHT); (u, UP); (d, DOWN)])).
  eapply call_inv_step; [done |]. by constructor.
Qed.

Lemma solve_call_inv t p0 g fuel s h s' :
  call_inv t p0 g s → solve fuel s = Return h s' →
  call_inv t p0 g s' ∧ (h = [] ∨ path t (standing p0) h (standing g)).
Proof.
  intros Hinv. unfold solve.
  rewrite (call_start _ _ _ _ Hinv), mkBlock_Some by done.
  apply while_loop_call_inv. by apply call_inv_put_start.
Qed.

Lemma after_calls_inv t p0 g fuel n s s' :
  call_inv t p0 g s → after_calls fuel n s = Some s' → call_inv t p0 g s'.
Proof.
  revert s. induction n as [| n IH]; intros s Hinv; cbn.
  - by intros [= <-].
  - destruct (solve fuel s) as [| | h s1] eqn:Hrun; [done | done |].
    apply IH. by destruct (solve_call_inv _ _ _ _ _ _ _ Hinv Hrun).
Qed.

(** X4: whatever the number of calls already made on a solver, a call that
    returns gives the empty list or a sequence of legal tilts leading from
    the standing start to the standing goal. *)
Theorem every_call_sound (t : Pos → bool) (p0 g : Pos) (fuel n fuel' : nat)
    (s s' : Solver) (h : list Move)
    (Hcalls : after_calls fuel n (init p0 g t) = Some s)
    (Hrun : solve fuel' s = Return h s') :
  h = [] ∨ path t (standing p0) h (standing g).
Proof.
  pose proof (after_calls_inv _ _ _ _ _ _ _ (call_inv_init t p0 g) Hcalls) as Hinv.
  by destruct (solve_call_inv _ _ _ _ _ _ _ Hinv Hrun).
Qed.

(** X5: no call on a solver, first or later, fails an assertion: every
    block the search builds passes the check of the constructor. *)
Theorem every_call_asserts_nothing (t : Pos → bool) (p0 g : Pos)
    (fuel n fuel' : nat) (s : Solver)
    (Hcalls : after_calls fuel n (init p0 g t) = Some s) :
  solve fuel' s ≠ AssertionError.
Proof.
  pose proof (after_calls_inv _ _ _ _ _ _ _ (call_inv_init t p0 g) Hcalls) as Hinv.
  unfold solve. rewrite (call_start _ _ _ _ Hinv), mkBlock_Some by done.
  eapply while_loop_no_assert. by apply call_inv_put_start.
Qed.

(** X6: after any number of calls, the explored set holds only
    configurations that legal tilts reach from the standing start, and never
    the standing goal. *)
Theorem explored_reachable_not_goal (t : Pos → bool) (p0 g : Pos)
    (fuel n : nat) (s : Solver) (b : Block)
    (Hcalls : after_calls fuel n (init p0 g t) = Some s)
    (Hb : b ∈ explored s) :
  reachable t p0 b ∧ b ≠ standing g.
Proof.
  pose proof (after_calls_inv _ _ _ _ _ _ _ (call_inv_init t p0 g) Hcalls) as Hinv.
  by apply (call_explored _ _ _ _ Hinv).
Qed.

(** ** Termination without a finite terrain *)

Lemma within_self n b : b ∈ within n b.
Proof.
  destruct n; cbn; [by apply elem_of_singleton |].
  apply elem_of_union. left. by apply elem_of_singleton.
Qed.

Lemma within_path t b ms b' n :
  path t b ms b' → (length ms <= n)%nat → b' ∈ within n b.
Proof.
  intros Hp. revert n.
  induction Hp as [| b m c ms b' Ht Hl Hp IH]; intros n Hn.
  - apply within_self.
  - destruct n as [| n]; cbn in Hn; [lia |].
    cbn [within]. apply elem_of_union. right.
    apply elem_of_union_list. exists (within n c). split.
    + apply list_elem_of_fmap. exists m. rewrite Ht. split; [done |].
      rewrite !elem_of_cons. destruct m; auto.
    + apply IH. lia.
Qed.

(** One expansion lowers the measure as soon as the expanded block lies in
    the reference set. *)
Lemma measure_expand (X : gset Block) s block history rest ns :
  fifo s = (block, history) :: rest →
  neighbors block = Some ns →
  block ∈ X →
  (measure X (explored (next s block history rest ns))
             (fifo (next s block history rest ns))
   < measure X (explored s) (fifo s))%nat.
Proof.
  intros Hq Hn HB0.
  rewrite next_eq, Hq. cbn [explored fifo].
  set (E := explored s). set (E' := E ∪ {[block]}).
  set (n' := size (X ∖ E')).
  unfold measure. rewrite sum_list_with_app. cbn [sum_list_with].
  assert (Hnew : (sum_list_with (weight X E') (fresh E' (terrain s) history ns)
                  <= 4 * pot n')%nat).
  { etrans; [apply (sum_list_with_bound _ (pot n')) |].
    - intros [b h] (m & _ & _ & Hout & _)%elem_of_fresh.
      unfold weight. cbn. by rewrite decide_False.
    - pose proof (length_fresh E' (terrain s) history ns) as Hlen.
      rewrite (neighbors_length _ _ Hn) in Hlen.
      by apply Nat.mul_le_mono_r. }
  destruct (decide (block ∈ E)) as [Hin | Hout].
  - assert (HE : E' = E) by by apply add_explored_again.
    assert (Hfront : weight X E (block, history) = pot (S n')).
    { unfold weight, n'. cbn [fst]. by rewrite decide_True, HE. }
    rewrite Hfront. rewrite HE in Hnew |- *. cbn [pot]. lia.
  - pose proof (size_unexplored_add X E block HB0 Hout) as Hsize.
    fold E' in Hsize. fold n' in Hsize.
    assert (Hfront : weight X E (block, history) = pot (S n')).
    { unfold weight. cbn [fst]. by rewrite decide_False, Hsize. }
    assert (Hold : (sum_list_with (weight X E') rest
                    <= sum_list_with (weight X E) rest)%nat).
    { apply sum_list_with_le. intros [b h] _. unfold weight. cbn [fst].
      rewrite Hsize. fold n'.
      destruct (decide (b ∈ E')) as [Hb' | Hb'];
        destruct (decide (b ∈ E)) as [Hb | Hb];
        [apply pot_mono; lia | done | | apply pot_mono; lia].
      destruct Hb'. by apply in_add_l. }
    rewrite Hfront. cbn [pot]. lia.
Qed.

(** While a solution of length [n] exists, no pending history is longer
    than [n + 1]. *)
Lemma queue_short t p0 g s P b h :
  bfs_inv t p0 g s → path t (standing p0) P (standing g) →
  (b, h) ∈ fifo s → (length h <= length P + 1)%nat.
Proof.
  intros Hinv HP Hin.
  destruct (inv_front _ _ _ _ Hinv P HP) as (b0 & h0 & P' & Hin0 & _ & Hle).
  pose proof (inv_ordered _ _ _ _ Hinv) as Hord.
  destruct (fifo s) as [| [bf hf] rest]; [by apply elem_of_nil in Hin |].
  pose proof (ordered_front _ _ _ _ _ Hord Hin).
  pose proof (ordered_front _ _ _ _ _ Hord Hin0). lia.
Qed.

Lemma while_loop_terminates_solvable t p0 g P fuel s :
  path t (standing p0) P (standing g) →
  bfs_inv t p0 g s →
  (measure (within (length P + 1) (standing p0)) (explored s) (fifo s)
   < fuel)%nat →
  ∃ h s', while_loop fuel s = Return h s'.
Proof.
  intros HP. revert s.
  induction fuel as [| fuel IH]; intros s Hinv Hlt; [lia |].
  cbn [while_loop].
  destruct (fifo s) as [| [block history] rest] eqn:Hq; [by eauto |].
  change (done (set_fifo s rest) block) with (done s block).
  destruct (done s block) eqn:Hd; [by eauto |].
  pose proof (bfs_inv_front_wf _ _ _ _ _ _ _ Hinv Hq) as Hwf.
  destruct (neighbors_wf block Hwf) as (l & r & u & d & Hn & _).
  rewrite Hn.
  set (ns := [(l, LEFT); (r, RIGHT); (u, UP); (d, DOWN)]) in *.
  assert (Hfront : (block, history) ∈ fifo s)
    by (rewrite Hq; apply list_elem_of_here).
  assert (HX : block ∈ within (length P + 1) (standing p0)).
  { eapply within_path.
    - by apply (inv_sound _ _ _ _ Hinv).
    - by eapply queue_short. }
  apply (IH (next s block history rest ns)).
  - eapply bfs_inv_step; [done |]. by constructor.
  - pose proof (measure_expand _ s block history rest ns Hq Hn HX) as Hm.
    rewrite Hq in Hm. lia.
Qed.

Lemma solve_init_terminates_solvable t p0 g :
  solvable t p0 g → ∃ fuel h s', solve fuel (init p0 g t) = Return h s'.
Proof.
  intros [P HP].
  set (s := put (init p0 g t) (standing p0, [])).
  exists (S (measure (within (length P + 1) (standing p0))
                     (explored s) (fifo s))).
  rewrite solve_init.
  apply (while_loop_terminates_solvable t p0 g P);
    [done | apply bfs_inv_put_start | apply Nat.lt_succ_diag_r].
Qed.

(** What the first call returns is no longer than any legal move sequence
    from the standing start to the standing goal. *)
Lemma solve_init_minimal t p0 g fuel h s' P :
  solve fuel (init p0 g t) = Return h s' →
  path t (standing p0) P (standing g) → (length h <= length P)%nat.
Proof.
  intros Hrun HP.
  destruct (solve_init_return _ _ _ _ _ _ Hrun)
    as (s_last & Hinv & [(_ & -> & _) | (rest & Hq & _)]); [cbn; lia |].
  destruct (inv_front _ _ _ _ Hinv P HP) as (b & hb & P' & Hin & _ & Hle).
  pose proof (inv_ordered _ _ _ _ Hinv) as Hord.
  rewrite Hq in Hin, Hord.
  pose proof (ordered_front _ _ _ _ _ Hord Hin). lia.
Qed.

(** When the goal is reachable the first call does not return the empty
    list for want of a route. *)
Lemma solve_init_reaches t p0 g fuel h s' :
  solve fuel (init p0 g t) = Return h s' → solvable t p0 g →
  path t (standing p0) h (standing g).
Proof.
  intros Hrun [P HP].
  destruct (solve_init_return _ _ _ _ _ _ Hrun)
    as (s_last & Hinv & [(Hq & _ & _) | (rest & Hq & _)]).
  - destruct (inv_front _ _ _ _ Hinv P HP) as (b & hb & _ & Hin & _).
    rewrite Hq in Hin. by apply elem_of_nil in Hin.
  - apply (inv_sound _ _ _ _ Hinv). rewrite Hq. apply list_elem_of_here.
Qed.

(** X7: whenever the standing goal can be reached by legal tilts, on a
    bounded terrain or not, the first call returns, and what it returns has
    the length of the graph distance. *)
Theorem goal_found_when_reachable (t : Pos → bool) (p0 g : Pos)
    (Hsolv : solvable t p0 g) :
  ∃ fuel h s',
    (∀ fuel', (fuel <= fuel')%nat → solve fuel' (init p0 g t) = Return h s') ∧
    distance t p0 g (length h).
Proof.
  destruct (solve_init_terminates_solvable t p0 g Hsolv) as (fuel & h & s' & Hrun).
  exists fuel, h, s'. split; [intros fuel' Hle; by eapply solve_more_fuel |].
  split.
  - exists h. split; [| done]. by eapply solve_init_reaches.
  - intros P HP. by eapply solve_init_minimal.
Qed.

Lemma plain_solvable : solvable plain (mkPos 0 0) (mkPos 0 3).
Proof.
  exists [RIGHT; RIGHT].
  eapply path_cons; [reflexivity | reflexivity |].
  eapply path_cons; [reflexivity | reflexivity |].
  apply path_nil.
Qed.

Lemma goal_found_when_reachable_witness :
  solvable plain (mkPos 0 0) (mkPos 0 3) ∧
  ∃ fuel h s',
    (∀ fuel', (fuel <= fuel')%nat →
       solve fuel' (init (mkPos 0 0) (mkPos 0 3) plain) = Return h s') ∧
    distance plain (mkPos 0 0) (mkPos 0 3) (length h).
Proof.
  split; [apply plain_solvable |].
  apply (goal_found_when_reachable plain (mkPos 0 0) (mkPos 0 3)), plain_solvable.
Defined.

(** ** When the first call returns *)

(** Once the queue has drained, everything reachable has been expanded. *)
Lemma drained_explored t p0 g s b :
  bfs_inv t p0 g s → fifo s = [] → reachable t p0 b → b ∈ explored s.
Proof.
  intros Hinv Hq [ms Hp].
  assert (Hstart : standing p0 ∈ explored s).
  { destruct (inv_first _ _ _ _ Hinv) as [[_ Hq'] | [? _]]; [| done].
    by rewrite Hq in Hq'. }
  revert Hp Hstart. generalize (standing p0). intros c0 Hp.
  induction Hp as [| b0 m c ms b Ht Hl Hp IH]; intros Hb0; [done |].
  apply IH.
  destruct (inv_closed _ _ _ _ Hinv _ _ _ Hb0 Ht Hl) as [? | [h Hin]]; [done |].
  rewrite Hq in Hin. by apply elem_of_nil in Hin.
Qed.

Lemma solve_init_returns_cases t p0 g fuel h s' :
  solve fuel (init p0 g t) = Return h s' →
  solvable t p0 g ∨ finite_reach t p0.
Proof.
  intros Hrun.
  destruct (solve_init_return _ _ _ _ _ _ Hrun)
    as (s_last & Hinv & [(Hq & _ & _) | (rest & Hq & _)]).
  - right. exists (explored s_last). intros b Hb. by eapply drained_explored.
  - left. exists h. apply (inv_sound _ _ _ _ Hinv).
    rewrite Hq. apply list_elem_of_here.
Qed.

(** C8: with finitely many reachable configurations and no legal move
    sequence from the standing start to the standing goal, [solve] returns
    the empty list because the queue drains: the loop falls through with an
    empty queue, every reachable configuration expanded and nothing else. *)
Theorem solve_unreachable (t : Pos → bool) (p0 g : Pos)
    (Hfin : finite_reach t p0) (Hnone : ¬ solvable t p0 g) :
  ∃ fuel s',
    (∀ fuel', (fuel <= fuel')%nat → solve fuel' (init p0 g t) = Return [] s') ∧
    fifo s' = [] ∧
    (∀ b, b ∈ explored s' ↔ reachable t p0 b).
Proof.
  destruct (solve_init_terminates t p0 g Hfin) as (fuel & h & s' & Hrun).
  destruct (solve_call_inv _ _ _ _ _ _ _ (call_inv_init t p0 g) Hrun)
    as [Hcall _].
  destruct (solve_init_return _ _ _ _ _ _ Hrun)
    as (s_last & Hinv & [(Hq & -> & ->) | (rest & Hq & _)]).
  - exists fuel, s_last. split; [| split].
    + intros fuel' Hle. by eapply solve_more_fuel.
    + done.
    + intros b. split.
      * intros Hb. by apply (call_explored _ _ _ _ Hcall).
      * intros Hb. by eapply drained_explored.
  - destruct Hnone. exists h. apply (inv_sound _ _ _ _ Hinv).
    rewrite Hq. apply list_elem_of_here.
Qed.

Lemma solve_unreachable_witness :
  finite_reach row4 (mkPos 0 0) ∧ ¬ solvable row4 (mkPos 0 0) (mkPos 0 2) ∧
  ∃ fuel s',
    (∀ fuel', (fuel <= fuel')%nat →
       solve fuel' (init (mkPos 0 0) (mkPos 0 2) row4) = Return [] s') ∧
    fifo s' = [] ∧
    (∀ b, b ∈ explored s' ↔ reachable row4 (mkPos 0 0) b).
Proof.
  split; [apply row4_finite |]. split; [apply row4_unsolvable |].
  apply (solve_unreachable row4 (mkPos 0 0) (mkPos 0 2));
    [apply row4_finite | apply row4_unsolvable].
Defined.

Lemma solve_init_no_assert t p0 g fuel :
  solve fuel (init p0 g t) ≠ AssertionError.
Proof.
  rewrite solve_init. eapply while_loop_no_assert.
  apply call_inv_put_start, call_inv_init.
Qed.

(** X8: the first call on a new solver returns exactly when the goal is
    reachable or the reachable configurations are finitely many. *)
Theorem solve_returns_iff (t : Pos → bool) (p0 g : Pos) :
  (∃ fuel h s', solve fuel (init p0 g t) = Return h s') ↔
  solvable t p0 g ∨ finite_reach t p0.
Proof.
  split.
  - intros (fuel & h & s' & Hrun). by eapply solve_init_returns_cases.
  - intros [Hsolv | Hfin].
    + by apply solve_init_terminates_solvable.
    + by apply solve_init_terminates.
Qed.

(** X9: when the goal cannot be reached and the reachable configurations
    are not finitely many, the first call never returns: the loop is still
    running after any number of tests. *)
Theorem solve_diverges (t : Pos → bool) (p0 g : Pos)
    (Hnone : ¬ solvable t p0 g) (Hinf : ¬ finite_reach t p0) (fuel : nat) :
  solve fuel (init p0 g t) = OutOfFuel.
Proof.
  destruct (solve fuel (init p0 g t)) as [| | h s'] eqn:Hrun; [done | |].
  - by destruct (solve_init_no_assert t p0 g fuel).
  - destruct (solve_init_returns_cases _ _ _ _ _ _ Hrun); tauto.
Qed.

(** *** The unbounded row *)

Lemma row0_step b m c :
  row (b1 b) = 0 ∧ row (b2 b) = 0 ∧
    ((col (b2 b) = col (b1 b) ∧ col (b1 b) mod 3 = 0) ∨
     (col (b2 b) = col (b1 b) + 1 ∧ col (b1 b) mod 3 = 1)) →
  tilt m b = Some c → legal row0 c = true →
  row (b1 c) = 0 ∧ row (b2 c) = 0 ∧
    ((col (b2 c) = col (b1 c) ∧ col (b1 c) mod 3 = 0) ∨
     (col (b2 c) = col (b1 c) + 1 ∧ col (b1 c) mod 3 = 1)).
Proof.
  destruct b as [[r1 c1] [r2 c2]]. cbn [b1 b2 row col].
  intros (-> & -> & Hcol) Ht Hl.
  unfold legal, row0 in Hl.
  apply andb_true_iff in Hl as [Hl1 Hl2].
  apply bool_decide_eq_true in Hl1, Hl2.
  destruct Hcol as [[-> Hmod] | [-> Hmod]].
  - change (BlockOf (mkPos 0 c1) (mkPos 0 c1)) with (standing (mkPos 0 c1)) in Ht.
    rewrite tilt_s in Ht. injection Ht as <-.
    destruct m; cbn in *; Z.div_mod_to_equations; lia.
  - rewrite tilt_h in Ht by done. injection Ht as <-.
    destruct m; cbn in *; Z.div_mod_to_equations; lia.
Qed.

Lemma row0_unsolvable : ¬ solvable row0 (mkPos 0 0) (mkPos 0 1).
Proof.
  intros [ms Hp].
  assert (Hgen : ∀ b0 b,
    path row0 b0 ms b →
    row (b1 b0) = 0 ∧ row (b2 b0) = 0 ∧
      ((col (b2 b0) = col (b1 b0) ∧ col (b1 b0) mod 3 = 0) ∨
       (col (b2 b0) = col (b1 b0) + 1 ∧ col (b1 b0) mod 3 = 1)) →
    row (b1 b) = 0 ∧ row (b2 b) = 0 ∧
      ((col (b2 b) = col (b1 b) ∧ col (b1 b) mod 3 = 0) ∨
       (col (b2 b) = col (b1 b) + 1 ∧ col (b1 b) mod 3 = 1))).
  { clear. intros b0 b Hp.
    induction Hp as [| b0 m c ms b Ht Hl Hp IH]; [done |].
    intros Hb0. apply IH. by eapply row0_step. }
  specialize (Hgen _ _ Hp). cbn in Hgen.
  assert (0 mod 3 = 0) by reflexivity. assert (1 mod 3 = 1) by reflexivity.
  lia.
Qed.

Lemma row0_reach (k : nat) :
  reachable row0 (mkPos 0 0) (standing (mkPos 0 (3 * Z.of_nat k))).
Proof.
  induction k as [| k [ms Hp]].
  - exists []. constructor.
  - exists ((ms ++ [RIGHT]) ++ [RIGHT]).
    eapply path_snoc;
      [eapply path_snoc; [exact Hp | apply tilt_s | reflexivity] | |].
    + cbn match. rewrite tilt_h by lia. block_eq.
    + reflexivity.
Qed.

Lemma blocks_col_bound (l : list Block) :
  ∃ B, ∀ b, b ∈ l → col (b1 b) < B.
Proof.
  induction l as [| a l [B HB]].
  - exists 0. by intros b ?%elem_of_nil.
  - exists (Z.max B (col (b1 a) + 1)).
    intros b [-> | Hb%HB]%elem_of_cons; lia.
Qed.

Lemma row0_infinite : ¬ finite_reach row0 (mkPos 0 0).
Proof.
  intros [X HX].
  destruct (blocks_col_bound (elements X)) as [B HB].
  pose proof (HX _ (row0_reach (Z.to_nat B))) as Hin.
  apply elem_of_elements, HB in Hin. cbn in Hin. lia.
Qed.

Lemma solve_diverges_witness :
  ¬ solvable row0 (mkPos 0 0) (mkPos 0 1) ∧ ¬ finite_reach row0 (mkPos 0 0) ∧
  solve 1000 (init (mkPos 0 0) (mkPos 0 1) row0) = OutOfFuel.
Proof.
  split; [apply row0_unsolvable |]. split; [apply row0_infinite |].
  exact (solve_diverges row0 (mkPos 0 0) (mkPos 0 1)
           row0_unsolvable row0_infinite 1000).
Defined.

(** ** The empty result *)

Lemma solve_goal_first p t fuel :
  solve (S fuel) (init p p t) = Return [] (init p p t).
Proof.
  rewrite solve_init. cbn [while_loop put init fifo set_fifo app].
  assert (Hd : ∀ s, goal s = p → done s (standing p) = true).
  { intros s Hs. apply done_iff. by rewrite Hs. }
  by rewrite Hd.
Qed.

(** X10: the first call returns the empty list exactly when the start is
    the goal, or the goal is unreachable while the reachable configurations
    are finitely many; a caller cannot tell the two apart from the result. *)
Theorem solve_empty_iff (t : Pos → bool) (p0 g : Pos) :
  (∃ fuel s', solve fuel (init p0 g t) = Return [] s') ↔
  p0 = g ∨ (¬ solvable t p0 g ∧ finite_reach t p0).
Proof.
  split.
  - intros (fuel & s' & Hrun).
    destruct (solve_init_return _ _ _ _ _ _ Hrun)
      as (s_last & Hinv & [(Hq & _ & _) | (rest & Hq & _)]).
    + right. split.
      * intros [P HP].
        destruct (inv_front _ _ _ _ Hinv P HP) as (b & hb & _ & Hin & _).
        rewrite Hq in Hin. by apply elem_of_nil in Hin.
      * exists (explored s_last). intros b Hb. by eapply drained_explored.
    + left.
      assert (Hp : path t (standing p0) [] (standing g)).
      { apply (inv_sound _ _ _ _ Hinv). rewrite Hq. apply list_elem_of_here. }
      inversion Hp. done.
  - intros [-> | [Hnone Hfin]].
    + exists 1%nat, (init g g t). apply solve_goal_first.
    + destruct (solve_init_terminates t p0 g Hfin) as (fuel & h & s' & Hrun).
      exists fuel, s'.
      destruct (solve_init_return _ _ _ _ _ _ Hrun)
        as (s_last & Hinv & [(_ & -> & _) | (rest & Hq & _)]); [done |].
      destruct Hnone. exists h. apply (inv_sound _ _ _ _ Hinv).
      rewrite Hq. apply list_elem_of_here.
Qed.

(** ** The route returned *)

(** A configuration met on the way is closer to the end than the start. *)
Lemma path_from_visit t b h T bs c :
  path t b h T → walk b h = Some bs → c ∈ bs →
  ∃ h2, path t c h2 T ∧ (length h2 < length h)%nat.
Proof.
  intros Hp. revert bs.
  induction Hp as [| b m b' ms T Ht Hl Hp IH]; intros bs Hw Hc; cbn in Hw.
  - injection Hw as <-. by apply elem_of_nil in Hc.
  - rewrite Ht in Hw. cbn in Hw.
    destruct (walk b' ms) as [bs' |] eqn:Hw'; [| done].
    cbn in Hw. injection Hw as <-.
    apply elem_of_cons in Hc as [-> | Hc].
    + exists ms. split; [done | cbn; lia].
    + destruct (IH bs' eq_refl Hc) as (h2 & Hp2 & Hlt).
      exists h2. split; [done | cbn; lia].
Qed.

Lemma shortest_no_repeat t b h T bs :
  path t b h T → (∀ P, path t b P T → (length h <= length P)%nat) →
  walk b h = Some bs → NoDup (b :: bs).
Proof.
  intros Hp. revert bs.
  induction Hp as [| b m b' ms T Ht Hl Hp IH]; intros bs Hmin Hw.
  - cbn in Hw. injection Hw as <-. apply NoDup_singleton.
  - apply NoDup_cons. split.
    + intros Hb.
      destruct (path_from_visit t b (m :: ms) T bs b) as (h2 & Hp2 & Hlt);
        [by econstructor | done | done |].
      specialize (Hmin h2 Hp2). lia.
    + cbn in Hw. rewrite Ht in Hw. cbn in Hw.
      destruct (walk b' ms) as [bs' |] eqn:Hw'; [| done].
      cbn in Hw. injection Hw as <-.
      apply IH; [| done].
      intros P HP.
      assert (Hlen : (length (m :: ms) <= length (m :: P))%nat)
        by (apply Hmin; by econstructor).
      cbn in Hlen. lia.
Qed.

(** X11: the route the first call returns never passes twice through the
    same configuration, the start included. *)
Theorem solve_no_repeat (t : Pos → bool) (p0 g : Pos) (fuel : nat)
    (h : list Move) (s' : Solver) (bs : list Block)
    (Hrun : solve fuel (init p0 g t) = Return h s')
    (Hw : walk (standing p0) h = Some bs) :
  NoDup (standing p0 :: bs).
Proof.
  destruct (solve_init_return _ _ _ _ _ _ Hrun)
    as (s_last & Hinv & [(_ & -> & _) | (rest & Hq & _)]).
  - cbn in Hw. injection Hw as <-. apply NoDup_singleton.
  - eapply (shortest_no_repeat t _ h (standing g)); [| | done].
    + apply (inv_sound _ _ _ _ Hinv). rewrite Hq. apply list_elem_of_here.
    + intros P HP. by eapply solve_init_minimal.
Qed.

Lemma solve_no_repeat_witness :
  ∃ s', solve 4 (init (mkPos 0 0) (mkPos 0 3) grid3x4) = Return [RIGHT; RIGHT] s' ∧
    walk (standing (mkPos 0 0)) [RIGHT; RIGHT]
      = Some [BlockOf (mkPos 0 1) (mkPos 0 2); standing (mkPos 0 3)] ∧
    NoDup [standing (mkPos 0 0); BlockOf (mkPos 0 1) (mkPos 0 2);
           standing (mkPos 0 3)].
Proof.
  assert (Hrun : ∃ s', solve 4 (init (mkPos 0 0) (mkPos 0 3) grid3x4)
                       = Return [RIGHT; RIGHT] s')
    by (vm_compute; eauto).
  destruct Hrun as [s' Hrun]. exists s'. split; [exact Hrun |].
  assert (Hw : walk (standing (mkPos 0 0)) [RIGHT; RIGHT]
               = Some [BlockOf (mkPos 0 1) (mkPos 0 2); standing (mkPos 0 3)])
    by reflexivity.
  split; [exact Hw |].
  exact (solve_no_repeat _ _ _ _ _ _ _ Hrun Hw).
Defined.

(** ** Later calls *)

(** X12: a later call on the same solver never returns a non-empty
    sequence shorter than what the first call returned. *)
Theorem later_call_not_shorter (t : Pos → bool) (p0 g : Pos)
    (fuel fuel2 n fuel3 : nat) (h1 h2 : list Move) (s1 s s2 : Solver)
    (Hfirst : solve fuel (init p0 g t) = Return h1 s1)
    (Hcalls : after_calls fuel2 n s1 = Some s)
    (Hlater : solve fuel3 s = Return h2 s2) :
  h2 = [] ∨ (length h1 <= length h2)%nat.
Proof.
  destruct (solve_call_inv _ _ _ _ _ _ _ (call_inv_init t p0 g) Hfirst)
    as [Hinv1 _].
  pose proof (after_calls_inv _ _ _ _ _ _ _ Hinv1 Hcalls) as Hinv.
  destruct (solve_call_inv _ _ _ _ _ _ _ Hinv Hlater) as [_ [-> | Hp]];
    [by left | right].
  by eapply solve_init_minimal.
Qed.

(** Binds [name] to the state a run evaluates to. *)
Ltac pose_state name run :=
  lazymatch eval vm_compute in run with
  | Some ?s => pose (name := s)
  end.

Lemma later_call_not_shorter_witness :
  ∃ s1 s2,
    solve 4 (init (mkPos 0 0) (mkPos 0 3) grid3x4) = Return [RIGHT; RIGHT] s1 ∧
    after_calls 0 0 s1 = Some s1 ∧
    solve 18 s1 = Return [DOWN; RIGHT; RIGHT; RIGHT; UP] s2 ∧
    ([DOWN; RIGHT; RIGHT; RIGHT; UP] = [] ∨ (2 <= 5)%nat).
Proof.
  pose_state s1 (after_calls 4 1 (init (mkPos 0 0) (mkPos 0 3) grid3x4)).
  assert (Hfirst : solve 4 (init (mkPos 0 0) (mkPos 0 3) grid3x4)
                   = Return [RIGHT; RIGHT] s1) by (vm_compute; reflexivity).
  assert (Hcalls : after_calls 0 0 s1 = Some s1) by reflexivity.
  assert (Hlater : ∃ s2, solve 18 s1 = Return [DOWN; RIGHT; RIGHT; RIGHT; UP] s2)
    by (vm_compute; eauto).
  destruct Hlater as [s2 Hlater]. exists s1, s2.
  split; [exact Hfirst |]. split; [exact Hcalls |]. split; [exact Hlater |].
  exact (later_call_not_shorter _ _ _ _ _ _ _ _ _ _ _ _ Hfirst Hcalls Hlater).
Defined.

Lemma every_call_sound_witness :
  ∃ s s',
    after_calls 4 1 (init (mkPos 0 0) (mkPos 0 3) grid3x4) = Some s ∧
    solve 18 s = Return [DOWN; RIGHT; RIGHT; RIGHT; UP] s' ∧
    ([DOWN; RIGHT; RIGHT; RIGHT; UP] = [] ∨
     path grid3x4 (standing (mkPos 0 0)) [DOWN; RIGHT; RIGHT; RIGHT; UP]
       (standing (mkPos 0 3))).
Proof.
  pose_state s1 (after_calls 4 1 (init (mkPos 0 0) (mkPos 0 3) grid3x4)).
  assert (Hcalls : after_calls 4 1 (init (mkPos 0 0) (mkPos 0 3) grid3x4)
                   = Some s1) by (vm_compute; reflexivity).
  assert (Hrun : ∃ s', solve 18 s1 = Return [DOWN; RIGHT; RIGHT; RIGHT; UP] s')
    by (vm_compute; eauto).
  destruct Hrun as [s' Hrun]. exists s1, s'.
  split; [exact Hcalls |]. split; [exact Hrun |].
  exact (every_call_sound _ _ _ _ _ _ _ _ _ Hcalls Hrun).
Defined.

Lemma every_call_asserts_nothing_witness :
  ∃ s, after_calls 4 1 (init (mkPos 0 0) (mkPos 0 3) grid3x4) = Some s ∧
       solve 18 s ≠ AssertionError.
Proof.
  pose_state s1 (after_calls 4 1 (init (mkPos 0 0) (mkPos 0 3) grid3x4)).
  assert (Hcalls : after_calls 4 1 (init (mkPos 0 0) (mkPos 0 3) grid3x4)
                   = Some s1) by (vm_compute; reflexivity).
  exists s1. split; [exact Hcalls |].
  exact (every_call_asserts_nothing _ _ _ _ _ 18%nat _ Hcalls).
Defined.

Lemma explored_reachable_not_goal_witness :
  ∃ s, after_calls 4 1 (init (mkPos 0 0) (mkPos 0 3) grid3x4) = Some s ∧
       BlockOf (mkPos 0 1) (mkPos 0 2) ∈ explored s ∧
       reachable grid3x4 (mkPos 0 0) (BlockOf (mkPos 0 1) (mkPos 0 2)) ∧
       BlockOf (mkPos 0 1) (mkPos 0 2) ≠ standing (mkPos 0 3).
Proof.
  pose_state s1 (after_calls 4 1 (init (mkPos 0 0) (mkPos 0 3) grid3x4)).
  assert (Hcalls : after_calls 4 1 (init (mkPos 0 0) (mkPos 0 3) grid3x4)
                   = Some s1) by (vm_compute; reflexivity).
  assert (Hb : BlockOf (mkPos 0 1) (mkPos 0 2) ∈ explored s1)
    by (apply (bool_decide_unpack _); vm_compute; exact I).
  exists s1. split; [exact Hcalls |]. split; [exact Hb |].
  exact (explored_reachable_not_goal _ _ _ _ _ _ _ Hcalls Hb).
Defined.

(** ** Start and goal exchanged *)

(** A legal route from a legal block can be walked back, tilt by tilt. *)
Lemma path_back t b ms b' :
  wf b → legal t b = true → path t b ms b' →
  path t b' (reverse (opposite <$> ms)) b.
Proof.
  intros Hwf Hlegal Hp.
  induction Hp as [| b m c ms b' Ht Hl Hp IH]; [constructor |].
  rewrite fmap_cons, reverse_cons.
  assert (Hwfc : wf c).
  { destruct (tilt_wf b m Hwf) as (c' & Hc' & ?). congruence. }
  eapply path_snoc; [by apply IH | by eapply tilt_back | done].
Qed.

Lemma length_back (ms : list Move) :
  length (reverse (opposite <$> ms)) = length ms.
Proof. by rewrite length_reverse, length_fmap. Qed.

Lemma standing_legal t p : t p = true → legal t (standing p) = true.
Proof. intros Hp. unfold legal. cbn. by rewrite Hp. Qed.

(** X13: with the start cell traversable and the goal reachable from it,
    a solver from start to goal and a solver from goal to start both return
    on their first call, each a legal route to its own goal, and the two
    sequences have the same length. *)
Theorem solve_exchange (t : Pos → bool) (p0 g : Pos)
    (Hp0 : t p0 = true) (Hsolv : solvable t p0 g) :
  ∃ fuel h s fuel' h' s',
    (∀ f, (fuel <= f)%nat → solve f (init p0 g t) = Return h s) ∧
    (∀ f, (fuel' <= f)%nat → solve f (init g p0 t) = Return h' s') ∧
    path t (standing p0) h (standing g) ∧
    path t (standing g) h' (standing p0) ∧
    length h = length h'.
Proof.
  assert (Hlegal0 : legal t (standing p0) = true) by by apply standing_legal.
  assert (Hlegalg : legal t (standing g) = true).
  { destruct Hsolv as [P HP].
    by destruct (path_end_legal _ _ _ _ HP) as [-> | ?]. }
  assert (Hsolv' : solvable t g p0).
  { destruct Hsolv as [P HP]. eexists.
    by apply (path_back _ _ _ _ (wf_standing p0) Hlegal0 HP). }
  destruct (solve_init_terminates_solvable t p0 g Hsolv) as (fuel & h & s & Hrun).
  destruct (solve_init_terminates_solvable t g p0 Hsolv')
    as (fuel' & h' & s' & Hrun').
  pose proof (solve_init_reaches _ _ _ _ _ _ Hrun Hsolv) as Hp.
  pose proof (solve_init_reaches _ _ _ _ _ _ Hrun' Hsolv') as Hp'.
  exists fuel, h, s, fuel', h', s'.
  split; [intros f Hle; by eapply solve_more_fuel |].
  split; [intros f Hle; by eapply solve_more_fuel |].
  split; [done |]. split; [done |].
  pose proof (path_back _ _ _ _ (wf_standing p0) Hlegal0 Hp) as Hback.
  pose proof (path_back _ _ _ _ (wf_standing g) Hlegalg Hp') as Hforth.
  pose proof (solve_init_minimal _ _ _ _ _ _ _ Hrun' Hback) as Hle'.
  pose proof (solve_init_minimal _ _ _ _ _ _ _ Hrun Hforth) as Hle.
  rewrite length_back in Hle, Hle'. lia.
Qed.

Lemma grid3x4_solvable : solvable grid3x4 (mkPos 0 0) (mkPos 0 3).
Proof.
  exists [RIGHT; RIGHT].
  eapply path_cons; [reflexivity | reflexivity |].
  eapply path_cons; [reflexivity | reflexivity |].
  apply path_nil.
Qed.

Lemma solve_exchange_witness :
  grid3x4 (mkPos 0 0) = true ∧ solvable grid3x4 (mkPos 0 0) (mkPos 0 3) ∧
  ∃ fuel h s fuel' h' s',
    (∀ f, (fuel <= f)%nat →
       solve f (init (mkPos 0 0) (mkPos 0 3) grid3x4) = Return h s) ∧
    (∀ f, (fuel' <= f)%nat →
       solve f (init (mkPos 0 3) (mkPos 0 0) grid3x4) = Return h' s') ∧
    path grid3x4 (standing (mkPos 0 0)) h (standing (mkPos 0 3)) ∧
    path grid3x4 (standing (mkPos 0 3)) h' (standing (mkPos 0 0)) ∧
    length h = length h'.
Proof.
  assert (Hp0 : grid3x4 (mkPos 0 0) = true) by reflexivity.
  split; [exact Hp0 |]. split; [apply grid3x4_solvable |].
  exact (solve_exchange grid3x4 (mkPos 0 0) (mkPos 0 3) Hp0 grid3x4_solvable).
Defined.

(** ** Which of the shortest routes is returned *)

Lemma code_from_app acc h P :
  code_from acc (h ++ P) = code_from (code_from acc h) P.
Proof. unfold code_from. apply fold_left_app. Qed.

Lemma code_snoc h m : code (h ++ [m]) = (4 * code h + rank m)%nat.
Proof. unfold code. by rewrite code_from_app. Qed.

Lemma rank_bound m : (rank m <= 3)%nat.
Proof. destruct m; cbn; lia. Qed.

Lemma code_from_bounds acc h :
  (acc * 4 ^ length h <= code_from acc h < (acc + 1) * 4 ^ length h)%nat.
Proof.
  revert acc. induction h as [| m h IH]; intros acc; cbn [length code_from fold_left].
  - rewrite Nat.pow_0_r. lia.
  - specialize (IH (4 * acc + rank m)%nat). unfold code_from in IH.
    pose proof (rank_bound m). rewrite Nat.pow_succ_r'.
    set (k := (4 ^ length h)%nat) in *. nia.
Qed.

Lemma code_from_ge acc h : (acc <= code_from acc h)%nat.
Proof.
  pose proof (code_from_bounds acc h) as [Hlo _].
  assert (1 <= 4 ^ length h)%nat by (apply Nat.pow_lower_bound; lia). nia.
Qed.

Lemma code_app_ge h P : (code h <= code (h ++ P))%nat.
Proof. unfold code. rewrite code_from_app. apply code_from_ge. Qed.

Lemma code_from_lt acc acc' h P :
  length h = length P → (acc < acc')%nat →
  (code_from acc h < code_from acc' P)%nat.
Proof.
  intros Hlen Hacc.
  pose proof (code_from_bounds acc h) as [_ Hhi].
  pose proof (code_from_bounds acc' P) as [Hlo _].
  rewrite Hlen in Hhi. set (k := (4 ^ length P)%nat) in *. nia.
Qed.

Lemma code_length_lt h P :
  (length h < length P)%nat → (code h < code P)%nat.
Proof.
  intros Hlen. unfold code.
  pose proof (code_from_bounds 1 h) as [_ Hhi].
  pose proof (code_from_bounds 1 P) as [Hlo _].
  assert (4 ^ S (length h) <= 4 ^ length P)%nat
    by (apply Nat.pow_le_mono_r; lia).
  rewrite Nat.pow_succ_r' in *. lia.
Qed.

Lemma code_length_le h P : (code h <= code P)%nat → (length h <= length P)%nat.
Proof.
  intros Hle. destruct (decide (length P < length h)%nat) as [Hlt | ?]; [| lia].
  apply code_length_lt in Hlt. lia.
Qed.

Lemma code_from_lex acc h P :
  length h = length P → (code_from acc h <= code_from acc P)%nat →
  lex_leb h P = true.
Proof.
  revert acc P. induction h as [| m h IH]; intros acc [| m' P] Hlen Hle;
    cbn in Hlen; try done.
  injection Hlen as Hlen. cbn [lex_leb].
  cbn [code_from fold_left] in Hle.
  change (fold_left _ h ?a) with (code_from a h) in Hle.
  change (fold_left _ P ?a) with (code_from a P) in Hle.
  destruct (Nat.lt_trichotomy (rank m) (rank m')) as [Hlt | [Heq | Hgt]].
  - apply Nat.ltb_lt in Hlt. by rewrite Hlt.
  - rewrite Heq in Hle. apply IH in Hle; [| done].
    apply Nat.eqb_eq in Heq. rewrite Heq, Hle. apply orb_true_r.
  - assert (code_from (4 * acc + rank m') P < code_from (4 * acc + rank m) h)%nat
      by (apply code_from_lt; [done | lia]).
    lia.
Qed.

Lemma increasing_app k (q news : list search_record) :
  increasing q →
  Forall (λ r, (code (snd r) < k)%nat) q →
  increasing news →
  Forall (λ r, (k <= code (snd r))%nat) news →
  increasing (q ++ news).
Proof.
  intros Hq Hlt Hnews Hge. induction q as [| r q IH]; cbn; [done |].
  destruct Hq as [Hr Hq]. apply Forall_cons in Hlt as [Hrk Hlt].
  split; [| by apply IH].
  apply Forall_app. split; [done |].
  eapply Forall_impl; [exact Hge |]. cbn. intros r' Hr'. lia.
Qed.

Lemma increasing_front b h rest b' h' :
  increasing ((b, h) :: rest) → (b', h') ∈ (b, h) :: rest →
  (code h <= code h')%nat.
Proof.
  intros [Hall _] [[= -> ->] | Hin]%elem_of_cons; [lia |].
  rewrite Forall_forall in Hall. specialize (Hall _ Hin). cbn [snd] in Hall. lia.
Qed.

(** The records of one expansion are appended in the order of the moves. *)
Lemma fresh_increasing E t history l r u d :
  increasing (fresh E t history [(l, LEFT); (r, RIGHT); (u, UP); (d, DOWN)]).
Proof.
  unfold fresh. rewrite !filter_cons, filter_nil.
  repeat case_decide; cbn [fmap list_fmap increasing fst snd];
    repeat split; repeat constructor; cbn [snd];
    rewrite ?code_snoc; cbn [rank]; lia.
Qed.

Lemma fresh_code E t history ns b h :
  (b, h) ∈ fresh E t history ns →
  (4 * code history <= code h <= 4 * code history + 3)%nat.
Proof.
  intros (m & -> & _)%elem_of_fresh. rewrite code_snoc.
  pose proof (rank_bound m). lia.
Qed.

Lemma path_first_move t b P T :
  path t b P T → b ≠ T →
  ∃ m b1 P', P = m :: P' ∧ tilt m b = Some b1 ∧ legal t b1 = true ∧
             path t b1 P' T.
Proof. intros [| b0 m b1 P' T0 Ht Hl Hp] Hne; [done |]. by eauto 8. Qed.

Lemma tie_inv_put_start t p0 g :
  tie_inv t p0 g (put (init p0 g t) (standing p0, [])).
Proof.
  split; cbn.
  - apply bfs_inv_put_start.
  - by split.
  - intros b0 h0 rest [= <- <- <-]. repeat constructor.
  - intros P HP. exists (standing p0), [], P.
    split; [apply list_elem_of_here | by split].
Qed.

Lemma tie_inv_step t p0 g s s' : tie_inv t p0 g s → step s s' → tie_inv t p0 g s'.
Proof.
  intros [Hbfs Hinc Hbound Hfront] Hstep.
  pose proof (bfs_inv_step _ _ _ _ _ Hbfs Hstep) as Hbfs'.
  destruct Hstep as [s B0 H0 rest ns Hq Hd Hn].
  pose proof (bfs_inv_front_wf _ _ _ _ _ _ _ Hbfs Hq) as Hwf.
  pose proof (neighbors_elem B0 ns) as Hns.
  destruct (neighbors_wf B0 Hwf) as (l & r & u & d & Hn' & _).
  assert (ns = [(l, LEFT); (r, RIGHT); (u, UP); (d, DOWN)]) as Hnseq by congruence.
  pose proof (inv_terrain _ _ _ _ Hbfs) as Ht.
  pose proof (inv_goal _ _ _ _ Hbfs) as Hg.
  pose proof (inv_ordered _ _ _ _ Hbfs) as Hord.
  specialize (Hbound _ _ _ Hq).
  rewrite Hq in Hinc, Hbound, Hord, Hfront.
  destruct Hinc as [Hhead Hinc]. apply Forall_cons in Hbound as [_ Hbound].
  assert (HB0 : B0 ≠ standing g).
  { intros ->. rewrite <- Hg in Hd.
    by rewrite (proj2 (done_iff s _) eq_refl) in Hd. }
  assert (Hone : (1 <= code H0)%nat) by apply code_from_ge.
  pose proof (next_eq s B0 H0 rest ns) as Hnext. rewrite Ht in Hnext.
  set (E' := explored s ∪ {[B0]}) in *.
  set (Q' := rest ++ fresh E' t H0 ns) in *.
  assert (HE' : explored (next s B0 H0 rest ns) = E') by by rewrite Hnext.
  assert (HQ' : fifo (next s B0 H0 rest ns) = Q') by by rewrite Hnext.
  assert (Hcodes : ∀ b h, (b, h) ∈ Q' →
            (code H0 < code h <= 4 * code H0 + 3)%nat).
  { intros b h [Hin | Hin]%elem_of_app.
    - rewrite Forall_forall in Hhead, Hbound.
      specialize (Hhead _ Hin). specialize (Hbound _ Hin).
      cbn [snd] in Hhead, Hbound. lia.
    - apply fresh_code in Hin. lia. }
  assert (Hlen : ∀ b h, (b, h) ∈ Q' → (length h <= length H0 + 1)%nat).
  { intros b h [Hin | Hin]%elem_of_app.
    - pose proof (ordered_front _ _ _ _ _ Hord (list_elem_of_further _ _ _ Hin)).
      lia.
    - apply elem_of_fresh in Hin as (m & -> & _). rewrite length_app. cbn. lia. }
  split.
  - done.
  - rewrite HQ'. apply (increasing_app (4 * code H0)); [done | done | |].
    + subst ns. apply fresh_increasing.
    + apply Forall_forall. intros [b h] Hin. apply fresh_code in Hin.
      cbn [snd]. lia.
  - rewrite HQ'. intros b1 h1 rest1 HQ1.
    assert (Hh1 : (code H0 < code h1)%nat).
    { apply (Hcodes b1 h1). rewrite HQ1. apply list_elem_of_here. }
    apply Forall_forall. intros [b h] Hin. cbn [snd].
    pose proof (Hcodes b h Hin). lia.
  - rewrite HQ'. intros P HP.
    destruct (Hfront P HP) as (b & h & P' & Hin & HP' & Hle).
    apply elem_of_cons in Hin as [[= -> ->] | Hin].
    + destruct (path_first_move _ _ _ _ HP' HB0)
        as (m & b1 & P'' & -> & Htilt & Hlegal & HP'').
      destruct (decide (b1 ∈ E')) as [Hexp | Hnew].
      * destruct (escape t E' Q' (standing g)) with (b := b1) (P := P'')
          as (c & hc & Pc & Hc & HPc & Hlt); [| | done | done |].
        -- rewrite <- HE', <- HQ'. apply (inv_closed _ _ _ _ Hbfs').
        -- rewrite <- HE'. apply (inv_goal_fresh _ _ _ _ Hbfs').
        -- exists c, hc, Pc. repeat split; [done | done |].
           pose proof (Hlen c hc Hc).
           assert (code (hc ++ Pc) < code (H0 ++ m :: P''))%nat.
           { apply code_length_lt. rewrite !length_app. cbn. lia. }
           lia.
      * exists b1, (H0 ++ [m]), P''. repeat split; [| done |].
        -- apply elem_of_app. right. apply elem_of_fresh. exists m.
           by rewrite Hns.
        -- by rewrite <- app_assoc.
    + exists b, h, P'. repeat split; [| done | done].
      apply elem_of_app. by left.
Qed.

Lemma while_loop_first t p0 g fuel s h s' P :
  tie_inv t p0 g s → while_loop fuel s = Return h s' →
  path t (standing p0) P (standing g) → (code h <= code P)%nat.
Proof.
  intros Hinv Hrun HP. revert s Hinv Hrun.
  induction fuel as [| fuel IH]; intros s Hinv Hrun; [done |].
  cbn [while_loop] in Hrun.
  destruct (fifo s) as [| [block history] rest] eqn:Hq.
  - injection Hrun as <- <-. apply code_from_ge.
  - change (done (set_fifo s rest) block) with (done s block) in Hrun.
    destruct (done s block) eqn:Hd.
    + injection Hrun as <- <-.
      destruct (tie_front _ _ _ _ Hinv P HP) as (b & hb & P' & Hin & _ & Hle).
      pose proof (tie_increasing _ _ _ _ Hinv) as Hinc.
      rewrite Hq in Hin, Hinc.
      pose proof (increasing_front _ _ _ _ _ Hinc Hin).
      pose proof (code_app_ge hb P'). lia.
    + destruct (neighbors block) as [ns |] eqn:Hn; [| done].
      apply (IH (next s block history rest ns)); [| done].
      eapply tie_inv_step; [done |]. by constructor.
Qed.

(** X14: among the legal routes to the goal the first call returns the
    one that comes first: none is shorter, and against any route of the same
    length it is the smaller one, position by position, in the order LEFT,
    RIGHT, UP, DOWN in which [neighbors] lists the moves. *)
Theorem solve_first_in_order (t : Pos → bool) (p0 g : Pos) (fuel : nat)
    (h P : list Move) (s' : Solver)
    (Hrun : solve fuel (init p0 g t) = Return h s')
    (HP : path t (standing p0) P (standing g)) :
  (length h <= length P)%nat ∧ (length P = length h → lex_leb h P = true).
Proof.
  rewrite solve_init in Hrun.
  pose proof (while_loop_first _ _ _ _ _ _ _ _ (tie_inv_put_start t p0 g) Hrun HP)
    as Hle.
  split; [by apply code_length_le |].
  intros Hlen. by apply (code_from_lex 1).
Qed.

Lemma solve_first_in_order_witness :
  ∃ s',
    solve 30 (init (mkPos 0 0) (mkPos (-1) 0) plain)
      = Return [LEFT; UP; RIGHT] s' ∧
    path plain (standing (mkPos 0 0)) [RIGHT; UP; LEFT]
      (standing (mkPos (-1) 0)) ∧
    (length [LEFT; UP; RIGHT] <= length [RIGHT; UP; LEFT])%nat ∧
    (length [RIGHT; UP; LEFT] = length [LEFT; UP; RIGHT] →
     lex_leb [LEFT; UP; RIGHT] [RIGHT; UP; LEFT] = true).
Proof.
  assert (Hrun : ∃ s', solve 30 (init (mkPos 0 0) (mkPos (-1) 0) plain)
                       = Return [LEFT; UP; RIGHT] s')
    by (vm_compute; eauto).
  destruct Hrun as [s' Hrun]. exists s'. split; [exact Hrun |].
  assert (HP : path plain (standing (mkPos 0 0)) [RIGHT; UP; LEFT]
                 (standing (mkPos (-1) 0))).
  { repeat (eapply path_cons; [reflexivity | reflexivity |]). apply path_nil. }
  split; [exact HP |].
  exact (solve_first_in_order _ _ _ _ _ _ _ Hrun HP).
Defined.

(** ** Records between calls *)

(** X15: after any number of calls, every record still waiting in the
    queue pairs a block with a sequence of legal tilts that leads from the
    standing start to that block. *)
Theorem pending_records_consistent (t : Pos → bool) (p0 g : Pos)
    (fuel n : nat) (s : Solver) (b : Block) (h : list Move)
    (Hcalls : after_calls fuel n (init p0 g t) = Some s)
    (Hin : (b, h) ∈ fifo s) :
  path t (standing p0) h b.
Proof.
  pose proof (after_calls_inv _ _ _ _ _ _ _ (call_inv_init t p0 g) Hcalls) as Hinv.
  by apply (call_sound _ _ _ _ Hinv).
Qed.

Lemma pending_records_consistent_witness :
  ∃ s, after_calls 4 1 (init (mkPos 0 0) (mkPos 0 3) grid3x4) = Some s ∧
       (BlockOf (mkPos 1 1) (mkPos 1 2), [RIGHT; DOWN]) ∈ fifo s ∧
       path grid3x4 (standing (mkPos 0 0)) [RIGHT; DOWN]
         (BlockOf (mkPos 1 1) (mkPos 1 2)).
Proof.
  pose_state s1 (after_calls 4 1 (init (mkPos 0 0) (mkPos 0 3) grid3x4)).
  assert (Hcalls : after_calls 4 1 (init (mkPos 0 0) (mkPos 0 3) grid3x4)
                   = Some s1) by (vm_compute; reflexivity).
  assert (Hin : (BlockOf (mkPos 1 1) (mkPos 1 2), [RIGHT; DOWN]) ∈ fifo s1)
    by (cbn; apply list_elem_of_here).
  exists s1. split; [exact Hcalls |]. split; [exact Hin |].
  exact (pending_records_consistent _ _ _ _ _ _ _ _ Hcalls Hin).
Defined.

(** ** More traversable cells *)




(** ** Moving the board *)

Section Moved.
Variables dr dc : Z.
Local Abbreviation mp := (move_pos dr dc).
Local Abbreviation mb := (move_block dr dc).

Lemma move_block_inj b b' : mb b = mb b' → b = b'.
Proof.
  destruct b as [[r1 c1] [r2 c2]], b' as [[r1' c1'] [r2' c2']].
  unfold move_block, move_pos. cbn. intros [=].
  repeat f_equal; lia.
Qed.

Lemma move_pos_back p : move_pos (- dr) (- dc) (mp p) = p.
Proof. destruct p as [r c]. unfold move_pos. cbn. f_equal; lia. Qed.

Lemma mkBlock_move p q : mkBlock (mp p) (mp q) = mb <$> mkBlock p q.
Proof.
  unfold mkBlock. cbn [move_pos row col].
  rewrite (bool_decide_ext (row p + dr <= row q + dr) (row p <= row q)) by lia.
  rewrite (bool_decide_ext (col p + dc <= col q + dc) (col p <= col q)) by lia.
  by destruct (_ && _).
Qed.

Lemma drow_move p d : PosOps.drow (mp p) d = mp (PosOps.drow p d).
Proof. unfold PosOps.drow, move_pos. cbn. f_equal; lia. Qed.

Lemma dcol_move p d : PosOps.dcol (mp p) d = mp (PosOps.dcol p d).
Proof. unfold PosOps.dcol, move_pos. cbn. f_equal; lia. Qed.

Lemma is_standing_move b : is_standing (mb b) = is_standing b.
Proof.
  unfold is_standing. apply bool_decide_ext. cbn.
  destruct b as [[r1 c1] [r2 c2]]. unfold move_pos. cbn.
  split; intros [=]; f_equal; lia.
Qed.

Lemma rows_move b :
  bool_decide (row (b1 (mb b)) = row (b2 (mb b)))
  = bool_decide (row (b1 b) = row (b2 b)).
Proof. apply bool_decide_ext. cbn. lia. Qed.

Lemma tilt_move m b : tilt m (mb b) = mb <$> tilt m b.
Proof.
  destruct m; unfold tilt, up, right, down, left, drow, dcol;
    rewrite is_standing_move, rows_move; cbn [b1 b2 move_block];
    rewrite ?drow_move, ?dcol_move, !mkBlock_move;
    by repeat case_match.
Qed.

Lemma neighbors_move b :
  neighbors (mb b)
  = (λ ns : list (Block * Move), prod_map mb id <$> ns) <$> neighbors b.
Proof.
  unfold neighbors.
  pose proof (tilt_move LEFT b) as Hl. pose proof (tilt_move RIGHT b) as Hr.
  pose proof (tilt_move UP b) as Hu. pose proof (tilt_move DOWN b) as Hd.
  cbn [tilt] in Hl, Hr, Hu, Hd. rewrite Hl, Hr, Hu, Hd.
  by destruct (left b), (right b), (up b), (down b).
Qed.

Lemma done_move s s' b : moved dr dc s s' → done s' (mb b) = done s b.
Proof.
  intros Hm. unfold done. rewrite is_standing_move, (moved_goal _ _ _ _ Hm).
  f_equal. apply bool_decide_ext. cbn.
  destruct (b1 b) as [r c], (goal s) as [r' c']. unfold move_pos. cbn.
  split; intros [=]; f_equal; lia.
Qed.

Lemma moved_put s s' b h :
  moved dr dc s s' → moved dr dc (put s (b, h)) (put s' (mb b, h)).
Proof.
  intros [He Hq Hg Hs Ht]. split; cbn; try done.
  by rewrite Hq, fmap_app.
Qed.

Lemma moved_for_neighbors s s' h ns :
  moved dr dc s s' →
  moved dr dc (for_neighbors s h ns)
              (for_neighbors s' h (prod_map mb id <$> ns)).
Proof.
  revert s s'. induction ns as [| [b m] ns IH]; intros s s' Hm; [done |].
  cbn [for_neighbors fmap list_fmap prod_map fst snd id].
  assert (Hl : is_legal s' (b1 (mb b)) (b2 (mb b)) = is_legal s (b1 b) (b2 b)).
  { unfold is_legal. cbn. by rewrite !(moved_terrain _ _ _ _ Hm). }
  rewrite Hl.
  destruct (decide (b ∈ explored s)) as [Hin | Hout].
  - rewrite decide_True by by apply (moved_explored _ _ _ _ Hm).
    by apply IH.
  - rewrite decide_False by by rewrite <- (moved_explored _ _ _ _ Hm).
    destruct (negb (is_legal s (b1 b) (b2 b))); [by apply IH |].
    by apply IH, moved_put.
Qed.

Lemma moved_expand s s' block rest rest' :
  moved dr dc s s' →
  fifo s' = prod_map mb id <$> fifo s →
  rest' = prod_map mb id <$> rest →
  moved dr dc (add_explored (set_fifo s rest) block)
              (add_explored (set_fifo s' rest') (mb block)).
Proof.
  intros [He Hq Hg Hs Ht] _ ->. split; cbn; try done.
  intros b. rewrite !elem_of_union, !elem_of_singleton, He.
  split; (intros [? | Heq]; [by left | right]); [by rewrite Heq |].
  by apply move_block_inj.
Qed.

Lemma moved_set_fifo s s' rest :
  moved dr dc s s' →
  moved dr dc (set_fifo s rest) (set_fifo s' (prod_map mb id <$> rest)).
Proof. intros [He Hq Hg Hs Ht]. by split. Qed.

Lemma while_loop_moved fuel s s' :
  moved dr dc s s' →
  match while_loop fuel s, while_loop fuel s' with
  | OutOfFuel, OutOfFuel => True
  | AssertionError, AssertionError => True
  | Return h a, Return h' a' => h = h' ∧ moved dr dc a a'
  | _, _ => False
  end.
Proof.
  revert s s'. induction fuel as [| fuel IH]; intros s s' Hm; [done |].
  cbn [while_loop]. rewrite (moved_fifo _ _ _ _ Hm).
  destruct (fifo s) as [| [block history] rest] eqn:Hq;
    cbn [fmap list_fmap prod_map fst snd id]; [done |].
  change (done (set_fifo s' ?q) ?b) with (done s' b).
  change (done (set_fifo s ?q) ?b) with (done s b).
  rewrite (done_move _ _ _ Hm).
  destruct (done s block); [split; [done | by apply moved_set_fifo] |].
  rewrite neighbors_move.
  destruct (neighbors block) as [ns |]; cbn [fmap option_fmap option_map]; [| done].
  apply IH, moved_for_neighbors.
  apply moved_expand; [done | | done].
  by rewrite (moved_fifo _ _ _ _ Hm), Hq.
Qed.

Lemma moved_init p0 g t :
  moved dr dc (init p0 g t) (init (mp p0) (mp g) (move_terrain dr dc t)).
Proof.
  split; cbn; try done.
  intros p. unfold move_terrain. by rewrite move_pos_back.
Qed.
End Moved.

(** X17: the answer does not depend on where the board sits: with start,
    goal and terrain all moved by the same number of rows and columns,
    [solve] returns the same move sequence (or runs out of the same fuel). *)
Theorem solve_moved (dr dc : Z) (t : Pos → bool) (p0 g : Pos) (fuel : nat) :
  returned (solve fuel (init (move_pos dr dc p0) (move_pos dr dc g)
                             (move_terrain dr dc t)))
  = returned (solve fuel (init p0 g t)).
Proof.
  rewrite !solve_init.
  pose proof (while_loop_moved dr dc fuel _ _
                (moved_put dr dc _ _ (standing p0) [] (moved_init dr dc p0 g t)))
    as Hrel.
  change (move_block dr dc (standing p0))
    with (standing (move_pos dr dc p0)) in Hrel.
  destruct (while_loop fuel (put (init p0 g t) _)),
           (while_loop fuel (put (init (move_pos dr dc p0) _ _) _));
    try done.
  by destruct Hrel as [-> _].
Qed.
